(** * varfmt: the variable-format analyzer

    A shallow embedding of [varfmt/varfmt.go] (the inspector-based
    analyzer): the constant-provenance engine [constlit]/[combine], the
    pass-through registry kept by [run], and the diagnostics it reports.

    Go runtime panics (a nil dereference, an index out of range) are made
    explicit with the [result] type; the lines written by [pt] through
    [println] are collected in a list. *)

From stdpp Require Import gmap strings list.
From Stdlib Require Import ZArith Lia.

Set Warnings "-register-all,-clear-no-such-hyp".
Set Default Proof Using "Type".

Open Scope Z_scope.
Open Scope string_scope.

(** ** Results of fallible code *)

Inductive result (A : Type) : Type :=
  | Ok (a : A)
  | Panic (msg : string).
Arguments Ok {A} a.
Arguments Panic {A} msg.

(** ** go/ast: expressions

    A [node] is the identity of an AST node (its address); maps keyed by
    [ast.Node] are keyed by it.  Operators, literal kinds and the type
    operand of a type assertion play no part in the analysis and are left
    out. *)

Definition node := positive.
Bind Scope positive_scope with node.

Inductive OtherKind :=
  | FuncLit | ArrayType | InterfaceType | MapType | ChanType | StructType
  | CompositeLit | FuncType | Ellipsis | IndexListExpr | BadExpr.

Inductive Expr :=
  | BinaryExpr (n : node) (X Y : Expr)
  | KeyValueExpr (n : node) (Key Value : Expr)
  | ParenExpr (n : node) (X : Expr)
  | SliceExpr (n : node) (X : Expr) (Low High Max : option Expr)
  | StarExpr (n : node) (X : Expr)
  | TypeAssertExpr (n : node) (X : Expr)
  | UnaryExpr (n : node) (X : Expr)
  | SelectorExpr (n : node) (X : Expr) (Sel : node)
  | BasicLit (n : node)
  | Ident (n : node)
  | CallExpr (n : node) (Fun : Expr) (Args : list Expr)
  | IndexExpr (n : node) (X Index : Expr)
  | OtherExpr (n : node) (k : OtherKind).

Definition nodeOf (x : Expr) : node :=
  match x with
  | BinaryExpr n _ _ | KeyValueExpr n _ _ | ParenExpr n _
  | SliceExpr n _ _ _ _ | StarExpr n _ | TypeAssertExpr n _
  | UnaryExpr n _ | SelectorExpr n _ _ | BasicLit n | Ident n
  | CallExpr n _ _ | IndexExpr n _ _ | OtherExpr n _ => n
  end.

(** [reflect.TypeOf(x).String()] for an expression. *)
Definition otherTypeName (k : OtherKind) : string :=
  match k with
  | FuncLit => "*ast.FuncLit" | ArrayType => "*ast.ArrayType"
  | InterfaceType => "*ast.InterfaceType" | MapType => "*ast.MapType"
  | ChanType => "*ast.ChanType" | StructType => "*ast.StructType"
  | CompositeLit => "*ast.CompositeLit" | FuncType => "*ast.FuncType"
  | Ellipsis => "*ast.Ellipsis" | IndexListExpr => "*ast.IndexListExpr"
  | BadExpr => "*ast.BadExpr"
  end.

Definition exprTypeName (x : Expr) : string :=
  match x with
  | BinaryExpr _ _ _ => "*ast.BinaryExpr"
  | KeyValueExpr _ _ _ => "*ast.KeyValueExpr"
  | ParenExpr _ _ => "*ast.ParenExpr"
  | SliceExpr _ _ _ _ _ => "*ast.SliceExpr"
  | StarExpr _ _ => "*ast.StarExpr"
  | TypeAssertExpr _ _ => "*ast.TypeAssertExpr"
  | UnaryExpr _ _ => "*ast.UnaryExpr"
  | SelectorExpr _ _ _ => "*ast.SelectorExpr"
  | BasicLit _ => "*ast.BasicLit"
  | Ident _ => "*ast.Ident"
  | CallExpr _ _ _ => "*ast.CallExpr"
  | IndexExpr _ _ _ => "*ast.IndexExpr"
  | OtherExpr _ k => otherTypeName k
  end.

(** ** go/types: objects and type information *)

Inductive ObjKind :=
  | KVar | KConst | KTypeName
  | KFunc (params_len : Z)      (* the signature's [Params().Len()] *)
  | KPkgName | KLabel | KBuiltin | KNil.

Record Object := { okind : ObjKind; oid : positive; opos : Z }.

Definition objTypeName (o : Object) : string :=
  match okind o with
  | KVar => "*types.Var" | KConst => "*types.Const"
  | KTypeName => "*types.TypeName" | KFunc _ => "*types.Func"
  | KPkgName => "*types.PkgName" | KLabel => "*types.Label"
  | KBuiltin => "*types.Builtin" | KNil => "*types.Nil"
  end.

(** [types.Info]: [ObjectOf id] is [None] for a nil object;
    [Selections x] is [None] when the map has no entry for [x] (a nil
    selection pointer), and otherwise holds the selection's [Obj()]. *)
Record Info := {
  ObjectOf : node → option Object;
  Selections : node → option Object
}.

(** [printf.Result.Kind] *)
Inductive PrintfKind := KindNone | KindPrintf | KindPrint | KindErrorf.

(** ** Evaluation state of the provenance engine

    [bad] is the map of culprits passed by reference through
    [constlit]/[combine]; [out] is what [pt] has printed so far. *)

Record EvalSt := { bad : gset node; out : list string }.

Definition M (A : Type) : Type := EvalSt → result (A * EvalSt).

Definition ret {A} (a : A) : M A := λ s, Ok (a, s).

Definition bind {A B} (m : M A) (k : A → M B) : M B :=
  λ s, match m s with
       | Ok (a, s') => k a s'
       | Panic msg => Panic msg
       end.

Definition panic {A} (msg : string) : M A := λ _, Panic msg.

Notation "'let!' x := m 'in' k" := (bind m (λ x, k))
  (at level 10, x pattern, m at level 100, k at level 200).

(** [bad[x] = struct{}{}] and [delete(bad, x)] *)
Definition mark (n : node) : M unit :=
  λ s, Ok (tt, {| bad := {[n]} ∪ bad s; out := out s |}).
Definition unmark (n : node) : M unit :=
  λ s, Ok (tt, {| bad := bad s ∖ {[n]}; out := out s |}).

(** [pt(label, x)] prints the label and the dynamic type of [x]. *)
Definition pt (label tyname : string) : M unit :=
  λ s, Ok (tt, {| bad := bad s; out := out s ++ [label ++ " " ++ tyname] |}).

Definition nil_deref : string :=
  "runtime error: invalid memory address or nil pointer dereference".
Definition index_out_of_range : string :=
  "runtime error: index out of range".

Section Analyzer.

Variable ti : Info.
(** the process-wide rendering function [pp] *)
Variable pp : node → string.

Definition constobj (obj : option Object) : bool :=
  match obj with
  | Some o => match okind o with KConst => true | _ => false end
  | None => false
  end.

Definition typeobj (obj : option Object) : bool :=
  match obj with
  | Some o => match okind o with KTypeName => true | _ => false end
  | None => false
  end.

(** [selobj]: [sel.Obj()] on a nil selection dereferences nil. *)
Definition selobj (x Sel : node) : result (option Object) :=
  match ObjectOf ti Sel with
  | Some obj => Ok (Some obj)
  | None =>
      match Selections ti x with
      | Some o => Ok (Some o)
      | None => Panic nil_deref
      end
  end.

Definition typeexpr (x : Expr) : M bool :=
  match x with
  | SelectorExpr _ _ Sel => ret (typeobj (ObjectOf ti Sel))
  | Ident id => ret (typeobj (ObjectOf ti id))
  | _ => let! _ := pt ("typeexpr " ++ pp (nodeOf x)) (exprTypeName x) in
         ret false
  end.

(** The loop of [combine]: evaluates every operand, left to right. *)
Fixpoint combine_loop (constlit : Expr → M bool) (xs : list Expr)
    (allgood allbad : bool) : M (bool * bool) :=
  match xs with
  | [] => ret (allgood, allbad)
  | x :: xs' =>
      let! c := constlit x in
      if c then combine_loop constlit xs' allgood false
      else combine_loop constlit xs' false allbad
  end.

Fixpoint unmark_all (xs : list Expr) : M unit :=
  match xs with
  | [] => ret tt
  | x :: xs' => let! _ := unmark (nodeOf x) in unmark_all xs'
  end.

Definition combine (constlit : Expr → M bool) (parent : Expr)
    (xs : list Expr) : M bool :=
  let! (allgood, allbad) := combine_loop constlit xs true true in
  let! _ := (if allbad
             then let! _ := unmark_all xs in mark (nodeOf parent)
             else ret tt) in
  ret allgood.

Definition opt_list (o : option Expr) : list Expr :=
  match o with Some e => [e] | None => [] end.

Fixpoint constlit (x : Expr) {struct x} : M bool :=
  let fallthrough := let! _ := mark (nodeOf x) in ret false in
  match x with
  | BinaryExpr _ X Y => combine constlit x [X; Y]
  | KeyValueExpr _ Key Value => combine constlit x [Key; Value]
  | ParenExpr _ X => combine constlit x [X]
  | SliceExpr _ X Low High Max =>
      (* exprs = [X] followed by each of Low, High, Max that is not nil *)
      match Low, High, Max with
      | None, None, None => combine constlit x [X]
      | Some l, None, None => combine constlit x [X; l]
      | None, Some h, None => combine constlit x [X; h]
      | None, None, Some m => combine constlit x [X; m]
      | Some l, Some h, None => combine constlit x [X; l; h]
      | Some l, None, Some m => combine constlit x [X; l; m]
      | None, Some h, Some m => combine constlit x [X; h; m]
      | Some l, Some h, Some m => combine constlit x [X; l; h; m]
      end
  | StarExpr _ X => combine constlit x [X]
  | TypeAssertExpr _ X => combine constlit x [X]
  | UnaryExpr _ X => combine constlit x [X]
  | SelectorExpr n _ Sel =>
      match selobj n Sel with
      | Panic msg => panic msg
      | Ok o => if constobj o then ret true else fallthrough
      end
  | BasicLit _ => ret true
  | Ident n => if constobj (ObjectOf ti n) then ret true else fallthrough
  | CallExpr _ Fun Args =>
      match Args with
      | [a] =>
          let! t := typeexpr Fun in
          if t then
            let! c := constlit a in
            if c then ret true else fallthrough
          else fallthrough
      | _ => fallthrough
      end
  | IndexExpr _ _ _ => fallthrough
  | OtherExpr n _ =>
      let! _ := pt ("unhandled constlit " ++ pp n) (exprTypeName x) in
      fallthrough
  end.

(** ** The traversal driver *)

(** [fmtarg]: the format index of a printf-like function, or -1. *)
Variable printers : Object → PrintfKind.

Definition fmtarg (obj : option Object) : Z :=
  match obj with
  | Some o =>
      match okind o with
      | KFunc params_len =>
          match printers o with
          | KindPrintf | KindErrorf => params_len - 2
          | _ => -1
          end
      | _ => -1
      end
  | None => -1
  end.

(** [nthName]: a field is the list of its names. *)
Fixpoint nthName_names (names : list node) (nth i : Z) : node + Z :=
  match names with
  | [] => inr i
  | n :: names' => if (i =? nth)%Z then inl n else nthName_names names' nth (i + 1)
  end.

Fixpoint nthName_from (flds : list (list node)) (nth i : Z) : option node :=
  match flds with
  | [] => None
  | fld :: flds' =>
      match nthName_names fld nth i with
      | inl n => Some n
      | inr i' => nthName_from flds' nth i'
      end
  end.

Definition nthName (flds : list (list node)) (nth : Z) : option node :=
  nthName_from flds nth 0.

Record RelatedInformation := { rPos : Z; rEnd : Z; rMessage : string }.

Record Diagnostic := {
  dPos : Z; dEnd : Z; dMessage : string;
  dRelated : list RelatedInformation
}.

(** The nodes the inspector passes to the callback of [run]. *)
Inductive Node :=
  | FuncDecl (Name : node) (Params : list (list node))
  | AssignStmt (Lhs : list Expr)
  | CallNode (Fun : Expr) (Args : list Expr).

(** State of one [run]: the registry [passthru] (keyed by the identity of
    the object), the diagnostics reported so far, and the lines printed
    by [pt]. *)
Record Pass := {
  passthru : gset positive;
  reported : list Diagnostic;
  printed : list string
}.

Variable Pos End_ : node → Z.
Variable SuppressNoArgs : bool.

Definition report (d : Diagnostic) (st : Pass) : Pass :=
  {| passthru := passthru st; reported := reported st ++ [d];
     printed := printed st |}.

Definition print (label tyname : string) (st : Pass) : Pass :=
  {| passthru := passthru st; reported := reported st;
     printed := printed st ++ [label ++ " " ++ tyname] |}.

Definition visitFuncDecl (Name : node) (Params : list (list node))
    (st : Pass) : Pass :=
  match ObjectOf ti Name with
  | Some obj =>
      let i := fmtarg (Some obj) in
      if (0 <=? i)%Z then
        match nthName Params i with
        | Some id =>
            match ObjectOf ti id with
            | Some obj' =>
                {| passthru := {[oid obj']} ∪ passthru st;
                   reported := reported st; printed := printed st |}
            | None => st
            end
        | None => st
        end
      else st
  | None => st
  end.

Fixpoint visitAssignStmt (Lhs : list Expr) (st : Pass) : Pass :=
  match Lhs with
  | [] => st
  | lh :: Lhs' =>
      let st' :=
        match lh with
        | Ident id =>
            match ObjectOf ti id with
            | Some obj =>
                {| passthru := passthru st ∖ {[oid obj]};
                   reported := reported st; printed := printed st |}
            | None => st
            end
        | _ => st
        end in
      visitAssignStmt Lhs' st'
  end.

(** The switch on [n.Fun]: [Ok None] is the default branch, which
    prints and returns. *)
Definition checkargOf (Fun : Expr) : result (option Z) :=
  match Fun with
  | Ident callfun => Ok (Some (fmtarg (ObjectOf ti callfun)))
  | SelectorExpr n _ Sel =>
      match selobj n Sel with
      | Ok obj => Ok (Some (fmtarg obj))
      | Panic msg => Panic msg
      end
  | CallExpr _ _ _ | TypeAssertExpr _ _ | ParenExpr _ _ | IndexExpr _ _ _ =>
      Ok (Some (-1))
  | OtherExpr _ (FuncLit | ArrayType | InterfaceType | MapType | ChanType
                | StructType) => Ok (Some (-1))
  | _ => Ok None
  end.

Definition related_of (x : node) : RelatedInformation :=
  {| rPos := Pos x; rEnd := End_ x;
     rMessage := "Non-constant: " ++ pp x |}.

(** The message of a general non-constant expression with culprits [bad]. *)
Definition culprit_msg (culprits : gset node) : string :=
  match elements culprits with
  | [x] => if (Z.of_nat (String.length (pp x)) <? 32)%Z
           then "variable `" ++ pp x ++ "`"
           else "non-constant expression"
  | _ => "non-constant expression"
  end.

Definition checkFormat (Fun arg : Expr) (st : Pass) : result Pass :=
  match arg with
  | Ident id =>
      match ObjectOf ti id with
      | Some obj =>
          match okind obj with
          | KVar =>
              if decide (oid obj ∈ passthru st) then Ok st
              else Ok (report
                {| dPos := Pos id; dEnd := End_ id;
                   dMessage := "variable `" ++ pp id ++ "` used for "
                               ++ pp (nodeOf Fun) ++ " format parameter";
                   dRelated := [ {| rPos := opos obj; rEnd := 0;
                                    rMessage := "defined here" |} ] |} st)
          | KConst => Ok st
          | _ => Ok (print ("unhandled argid " ++ pp id) (objTypeName obj) st)
          end
      | None => Panic nil_deref   (* [reflect.TypeOf(nil).String()] *)
      end
  | _ =>
      match constlit arg {| bad := ∅; out := printed st |} with
      | Panic msg => Panic msg
      | Ok (c, e) =>
          let st' := {| passthru := passthru st; reported := reported st;
                        printed := out e |} in
          if c then Ok st'
          else Ok (report
            {| dPos := Pos (nodeOf arg); dEnd := End_ (nodeOf arg);
               dMessage := culprit_msg (bad e) ++ " used for "
                           ++ pp (nodeOf Fun) ++ " format parameter";
               dRelated := related_of <$> elements (bad e) |} st')
      end
  end.

Definition visitCallExpr (Fun : Expr) (Args : list Expr) (st : Pass)
    : result Pass :=
  match checkargOf Fun with
  | Panic msg => Panic msg
  | Ok None =>
      Ok (print ("unhandled callfun " ++ pp (nodeOf Fun)) (exprTypeName Fun) st)
  | Ok (Some checkarg) =>
      if (checkarg <? 0)%Z then Ok st
      else if SuppressNoArgs && (Z.of_nat (length Args) - 1 >? checkarg)%Z
      then Ok st
      else
        match Args !! Z.to_nat checkarg with
        | None => Panic index_out_of_range
        | Some arg => checkFormat Fun arg st
        end
  end.

Definition visit (n : Node) (st : Pass) : result Pass :=
  match n with
  | FuncDecl Name Params => Ok (visitFuncDecl Name Params st)
  | AssignStmt Lhs => Ok (visitAssignStmt Lhs st)
  | CallNode Fun Args => visitCallExpr Fun Args st
  end.

(** [inspect.Preorder] calls the callback on every matching node, in
    depth-first order; [ns] is that sequence. *)
Fixpoint visitAll (ns : list Node) (st : Pass) : result Pass :=
  match ns with
  | [] => Ok st
  | n :: ns' =>
      match visit n st with
      | Ok st' => visitAll ns' st'
      | Panic msg => Panic msg
      end
  end.

Definition start : Pass :=
  {| passthru := ∅; reported := []; printed := [] |}.

Definition run (ns : list Node) : result Pass := visitAll ns start.

End Analyzer.

(** * Structure of expressions *)

(** The immediate sub-expressions of a node. *)
Definition children (x : Expr) : list Expr :=
  match x with
  | BinaryExpr _ X Y => [X; Y]
  | KeyValueExpr _ Key Value => [Key; Value]
  | ParenExpr _ X | StarExpr _ X | TypeAssertExpr _ X | UnaryExpr _ X => [X]
  | SliceExpr _ X Low High Max =>
      X :: opt_list Low ++ opt_list High ++ opt_list Max
  | SelectorExpr _ X _ => [X]
  | BasicLit _ | Ident _ | OtherExpr _ _ => []
  | CallExpr _ Fun Args => Fun :: Args
  | IndexExpr _ X Index => [X; Index]
  end.

(** The composite forms, which [constlit] hands to [combine]. *)
Definition composite (x : Expr) : bool :=
  match x with
  | BinaryExpr _ _ _ | KeyValueExpr _ _ _ | ParenExpr _ _
  | SliceExpr _ _ _ _ _ | StarExpr _ _ | TypeAssertExpr _ _
  | UnaryExpr _ _ => true
  | _ => false
  end.

(** The operands [combine] evaluates for a composite form. *)
Definition operands (x : Expr) : list Expr :=
  if composite x then children x else [].

Lemma Expr_children_ind (P : Expr → Prop) :
  (∀ x, Forall P (children x) → P x) → ∀ x, P x.
Proof.
  intros H. fix IH 1. intros x.
  apply H. destruct x; simpl; try (repeat constructor; apply IH).
  - destruct Low, High, Max; simpl; repeat constructor; apply IH.
  - constructor; [apply IH|].
    induction Args as [|a Args IHArgs]; constructor; [apply IH | apply IHArgs].
Qed.

(** * The state monad and the loop of [combine] *)

Lemma operands_nonempty x : composite x = true → operands x ≠ [].
Proof. by destruct x. Qed.

Lemma bind_Ok {A B} (m : M A) (k : A → M B) s r :
  bind m k s = Ok r ↔ ∃ a s', m s = Ok (a, s') ∧ k a s' = Ok r.
Proof.
  unfold bind. destruct (m s) as [[a s']|msg]; split.
  - intros H. by exists a, s'.
  - by intros (? & ? & [= <- <-] & H).
  - discriminate.
  - by intros (? & ? & [=] & _).
Qed.

Lemma combine_loop_true (f : Expr → M bool) xs :
  Forall (λ x, ∀ s s', f x s = Ok (true, s') → s' = s) xs →
  ∀ allgood allbad s allbad' s',
    combine_loop f xs allgood allbad s = Ok ((true, allbad'), s') →
    s' = s ∧ allgood = true ∧ (xs ≠ [] → allbad' = false).
Proof.
  induction 1 as [|x xs Hx _ IH]; intros allgood allbad s allbad' s'; simpl.
  - intros [= -> -> ->]. done.
  - intros (c & s1 & Hc & Hk)%bind_Ok. destruct c.
    + apply Hx in Hc as ->.
      destruct (IH _ _ _ _ _ Hk) as (-> & -> & Hb). repeat split.
      intros _. destruct xs as [|y ys]; [by inversion Hk | by apply Hb].
    + by destruct (IH _ _ _ _ _ Hk) as (_ & ? & _).
Qed.

Lemma combine_loop_verdicts (f : Expr → M bool) (v : Expr → bool) xs :
  Forall (λ x, ∀ s b s', f x s = Ok (b, s') → b = v x) xs →
  ∀ allgood allbad s allgood' allbad' s',
    combine_loop f xs allgood allbad s = Ok ((allgood', allbad'), s') →
    allgood' = allgood && forallb v xs ∧
    allbad' = allbad && forallb (λ x, negb (v x)) xs.
Proof.
  induction 1 as [|x xs Hx _ IH]; intros allgood allbad s allgood' allbad' s'; simpl.
  - intros [= -> -> ->]. by rewrite !andb_true_r.
  - intros (c & s1 & Hc & Hk)%bind_Ok. rewrite <-(Hx _ _ _ Hc).
    destruct c; apply IH in Hk as [-> ->]; simpl;
      by rewrite ?andb_false_r, ?andb_true_r.
Qed.

Lemma combine_loop_culprit (f : Expr → M bool) xs :
  Forall (λ x, (∀ s s', f x s = Ok (true, s') → s' = s) ∧
               (∀ s s', f x s = Ok (false, s') → bad s' ≠ ∅)) xs →
  ∀ allgood allbad s allbad' s',
    combine_loop f xs allgood allbad s = Ok ((false, allbad'), s') →
    (allgood = false → bad s ≠ ∅) → bad s' ≠ ∅.
Proof.
  induction 1 as [|x xs [Ht Hf] _ IH]; intros allgood allbad s allbad' s'; simpl.
  - intros [= -> -> ->]. auto.
  - intros (c & s1 & Hc & Hk)%bind_Ok Hinv. destruct c.
    + apply Ht in Hc as ->. eauto.
    + apply Hf in Hc. eauto.
Qed.

Lemma combine_loop_total (f : Expr → M bool) xs :
  Forall (λ x, ∀ s, ∃ b s', f x s = Ok (b, s')) xs →
  ∀ allgood allbad s, ∃ r s', combine_loop f xs allgood allbad s = Ok (r, s').
Proof.
  induction 1 as [|x xs Hx _ IH]; intros allgood allbad s; simpl.
  - by eexists _, _.
  - destruct (Hx s) as (b & s1 & Hb). unfold bind. rewrite Hb.
    destruct b; apply IH.
Qed.

Lemma unmark_all_spec xs s :
  unmark_all xs s =
  Ok (tt, {| bad := bad s ∖ list_to_set (nodeOf <$> xs); out := out s |}).
Proof.
  revert s. induction xs as [|x xs IH]; intros s; simpl.
  - replace (bad s ∖ ∅) with (bad s) by set_solver. by destruct s.
  - unfold bind, unmark. rewrite IH. simpl.
    by replace (bad s ∖ {[nodeOf x]} ∖ list_to_set (nodeOf <$> xs))
      with (bad s ∖ ({[nodeOf x]} ∪ list_to_set (nodeOf <$> xs)))
      by set_solver.
Qed.

Lemma combine_total (f : Expr → M bool) x xs s :
  Forall (λ x, ∀ s, ∃ b s', f x s = Ok (b, s')) xs →
  ∃ b s', combine f x xs s = Ok (b, s').
Proof.
  intros Hxs. unfold combine, bind.
  destruct (combine_loop_total f xs Hxs true true s) as ([g b] & s1 & ->).
  destruct b; simpl; [|by eexists _, _].
  rewrite unmark_all_spec. by eexists _, _.
Qed.

Lemma combine_loop_all_true (f : Expr → M bool) xs :
  Forall (λ x, ∀ s, f x s = Ok (true, s)) xs → xs ≠ [] →
  ∀ allgood allbad s,
    combine_loop f xs allgood allbad s = Ok ((allgood, false), s).
Proof.
  induction 1 as [|x xs Hx Hxs IH]; [done|]. intros _ allgood allbad s.
  simpl. unfold bind. rewrite Hx.
  destruct xs as [|y ys]; [done|]. by apply IH.
Qed.

(** * The provenance engine *)

Section Engine.

Variable ti : Info.
Variable pp : node → string.

Abbreviation constlit := (constlit ti pp).

(** [constlit] on a composite form is [combine] on its operands. *)
Lemma constlit_composite x :
  composite x = true → constlit x = combine constlit x (operands x).
Proof.
  destruct x; try discriminate; intros _; try reflexivity.
  destruct Low, High, Max; reflexivity.
Qed.

(** ** A constant verdict leaves the state untouched *)

Lemma typeexpr_true f s s' : typeexpr ti pp f s = Ok (true, s') → s' = s.
Proof. destruct f; simpl; intros H; by inversion H. Qed.

Lemma constlit_true x : ∀ s s', constlit x s = Ok (true, s') → s' = s.
Proof.
  induction x as [x IH] using Expr_children_ind. intros s s'.
  destruct (composite x) eqn:Hc.
  - rewrite (constlit_composite x Hc). unfold combine, operands. rewrite Hc.
    intros ([allgood allbad] & s1 & Hloop & Hk)%bind_Ok.
    apply bind_Ok in Hk as ([] & s2 & Hm & [= -> ->]).
    apply (combine_loop_true _ _ IH) in Hloop as (-> & _ & Hb).
    rewrite Hb in Hm; [by inversion Hm|].
    by destruct x.
  - destruct x; try discriminate; simpl.
    + unfold panic. destruct (selobj ti n Sel) as [o|]; [|done].
      destruct (constobj o); [by intros [= ->] | done].
    + by intros [= ->].
    + destruct (constobj _); [by intros [= ->] | done].
    + destruct Args as [|a [|]]; try done.
      intros (t & s1 & Ht & Hk)%bind_Ok. destruct t; [|done].
      apply typeexpr_true in Ht as ->.
      apply bind_Ok in Hk as (c & s2 & Hc' & Hk). destruct c; [|done].
      inversion Hk; subst. simpl in IH.
      apply Forall_cons in IH as [_ [IHa _]%Forall_cons].
      by apply IHa in Hc' as ->.
Qed.

(** ** The verdict as a function of the expression

    [verdict] is what [constlit] answers when it returns: it does not
    depend on the culprits collected so far. *)

Definition selconst (n Sel : node) : bool :=
  match selobj ti n Sel with
  | Ok o => constobj o
  | Panic _ => false
  end.

Definition istype (f : Expr) : bool :=
  match f with
  | SelectorExpr _ _ Sel => typeobj (ObjectOf ti Sel)
  | Ident id => typeobj (ObjectOf ti id)
  | _ => false
  end.

Fixpoint verdict (x : Expr) : bool :=
  match x with
  | BinaryExpr _ X Y => verdict X && verdict Y
  | KeyValueExpr _ Key Value => verdict Key && verdict Value
  | ParenExpr _ X | StarExpr _ X | TypeAssertExpr _ X | UnaryExpr _ X =>
      verdict X
  | SliceExpr _ X Low High Max =>
      verdict X && from_option verdict true Low
      && from_option verdict true High && from_option verdict true Max
  | SelectorExpr n _ Sel => selconst n Sel
  | BasicLit _ => true
  | Ident n => constobj (ObjectOf ti n)
  | CallExpr _ Fun [a] => istype Fun && verdict a
  | CallExpr _ _ _ | IndexExpr _ _ _ | OtherExpr _ _ => false
  end.

Lemma verdict_composite x :
  composite x = true → verdict x = forallb verdict (operands x).
Proof.
  destruct x; try discriminate; intros _; simpl;
    rewrite ?andb_true_r; try reflexivity.
  destruct Low, High, Max; simpl; rewrite ?andb_true_r, ?andb_assoc; reflexivity.
Qed.

Lemma typeexpr_istype f s b s' :
  typeexpr ti pp f s = Ok (b, s') → b = istype f.
Proof. destruct f; simpl; intros H; by inversion H. Qed.

Lemma constlit_verdict x : ∀ s b s', constlit x s = Ok (b, s') → b = verdict x.
Proof.
  induction x as [x IH] using Expr_children_ind. intros s b s'.
  destruct (composite x) eqn:Hc.
  - rewrite (constlit_composite x Hc), (verdict_composite x Hc).
    unfold operands in *. rewrite Hc. unfold combine.
    intros ([allgood allbad] & s1 & Hloop & Hk)%bind_Ok.
    apply bind_Ok in Hk as ([] & s2 & _ & [= -> ->]).
    by apply (combine_loop_verdicts _ _ _ IH) in Hloop as [-> _].
  - destruct x as [| | | | | | |n X Sel|n|n|n Fun Args|n X I|n k];
      try discriminate; simpl.
    + unfold selconst, panic. destruct (selobj ti n Sel) as [o|]; [|done].
      destruct (constobj o); by intros [= <- <-].
    + by intros [= <- <-].
    + destruct (constobj _); by intros [= <- <-].
    + destruct Args as [|a [|]]; try by intros [= <- <-].
      intros (t & s1 & Ht & Hk)%bind_Ok.
      rewrite <-(typeexpr_istype _ _ _ _ Ht).
      destruct t; [|by inversion Hk].
      apply bind_Ok in Hk as (c & s2 & Hc' & Hk).
      apply Forall_cons in IH as [_ [IHa _]%Forall_cons].
      rewrite <-(IHa _ _ _ Hc').
      destruct c; by inversion Hk.
    + by intros [= <- <-].
    + by intros [= <- <-].
Qed.

(** ** A non-constant verdict leaves a culprit *)

Lemma constlit_false x : ∀ s s', constlit x s = Ok (false, s') → bad s' ≠ ∅.
Proof.
  induction x as [x IH] using Expr_children_ind. intros s s'.
  destruct (composite x) eqn:Hc.
  - rewrite (constlit_composite x Hc). unfold operands in *. rewrite Hc.
    unfold combine.
    intros ([allgood allbad] & s1 & Hloop & Hk)%bind_Ok.
    apply bind_Ok in Hk as ([] & s2 & Hm & [= -> ->]).
    destruct allbad.
    + apply bind_Ok in Hm as ([] & s3 & _ & [= <-]). simpl. set_solver.
    + inversion Hm; subst.
      eapply combine_loop_culprit; [|exact Hloop|done].
      eapply Forall_impl; [exact IH|]. intros y Hy.
      split; [apply constlit_true | apply Hy].
  - destruct x as [| | | | | | |n X Sel|n|n|n Fun Args|n X I|n k];
      try discriminate; simpl.
    + unfold panic. destruct (selobj ti n Sel) as [o|]; [|done].
      destruct (constobj o); [done|]. intros [= <-]. simpl. set_solver.
    + destruct (constobj _); [done|]. intros [= <-]. simpl. set_solver.
    + destruct Args as [|a [|]]; try (intros [= <-]; simpl; set_solver).
      intros (t & s1 & Ht & Hk)%bind_Ok.
      destruct t; [|inversion Hk; simpl; set_solver].
      apply bind_Ok in Hk as (c & s2 & Hc' & Hk).
      destruct c; [done|]. inversion Hk; simpl; set_solver.
    + intros [= <-]. simpl. set_solver.
    + intros [= <-]. simpl. set_solver.
Qed.

(** ** When the engine returns

    [constlit] panics only in [selobj]; [resolved] says that every member
    access it evaluates has an object or a selection, as they all have
    in a type-checked package. *)

Definition selresolved (n Sel : node) : bool :=
  match selobj ti n Sel with Ok _ => true | Panic _ => false end.

Fixpoint resolved (x : Expr) : bool :=
  match x with
  | BinaryExpr _ X Y => resolved X && resolved Y
  | KeyValueExpr _ Key Value => resolved Key && resolved Value
  | ParenExpr _ X | StarExpr _ X | TypeAssertExpr _ X | UnaryExpr _ X =>
      resolved X
  | SliceExpr _ X Low High Max =>
      resolved X && from_option resolved true Low
      && from_option resolved true High && from_option resolved true Max
  | SelectorExpr n _ Sel => selresolved n Sel
  | CallExpr _ _ [a] => resolved a
  | _ => true
  end.

Lemma resolved_composite x :
  composite x = true → resolved x = forallb resolved (operands x).
Proof.
  destruct x; try discriminate; intros _; simpl;
    rewrite ?andb_true_r; try reflexivity.
  destruct Low, High, Max; simpl; rewrite ?andb_true_r, ?andb_assoc; reflexivity.
Qed.

Lemma constlit_total x :
  resolved x = true → ∀ s, ∃ s', constlit x s = Ok (verdict x, s').
Proof.
  intros Hr s.
  enough (∃ b s', constlit x s = Ok (b, s')) as (b & s' & H).
  { exists s'. by rewrite <-(constlit_verdict _ _ _ _ H). }
  revert Hr s. induction x as [x IH] using Expr_children_ind. intros Hr s.
  destruct (composite x) eqn:Hc.
  - rewrite (constlit_composite x Hc). rewrite (resolved_composite x Hc) in Hr.
    unfold operands in *. rewrite Hc in *.
    apply combine_total. rewrite forallb_forall in Hr.
    rewrite Forall_forall in IH |- *. intros y Hy. apply IH; [done|].
    apply Hr. by apply list_elem_of_In.
  - destruct x as [| | | | | | |n X Sel|n|n|n Fun Args|n X I|n k];
      try discriminate; simpl in *; try by eexists _, _.
    + unfold selresolved in Hr. destruct (selobj ti n Sel) as [o|]; [|done].
      destruct (constobj o); by eexists _, _.
    + destruct (constobj _); by eexists _, _.
    + destruct Args as [|a [|]]; try by eexists _, _.
      unfold bind. destruct Fun; simpl;
        try (by eexists _, _);
        (destruct (typeobj _); [|by eexists _, _]);
        apply Forall_cons in IH as [_ [IHa _]%Forall_cons];
        destruct (IHa Hr s) as (c & s2 & ->);
        destruct c; by eexists _, _.
Qed.

(** An operand is judged constant ([b = true]) or non-constant
    ([b = false]) when [constlit] returns that verdict for it. *)
Definition judged (b : bool) (x : Expr) : Prop :=
  ∀ s, ∃ s', constlit x s = Ok (b, s').

Lemma judged_verdict b x : judged b x → verdict x = b.
Proof.
  intros H. destruct (H {| bad := ∅; out := [] |}) as (s' & Hs).
  symmetry. by eapply constlit_verdict.
Qed.

Lemma resolved_judged x : resolved x = true → judged (verdict x) x.
Proof. intros Hr s. by apply constlit_total. Qed.

(** ** Classes of expressions *)

(** Holds a non-constant leaf that is an operand of the composite forms
    and call arguments around it, with no indexing expression in between.
    The leaves are identifiers, member accesses, literals and the kinds
    the engine does not recognise; the callee of a call and the receiver
    of a member access are not operands. *)
Fixpoint nonconst_leaf (x : Expr) : bool :=
  match x with
  | BinaryExpr _ X Y => nonconst_leaf X || nonconst_leaf Y
  | KeyValueExpr _ Key Value => nonconst_leaf Key || nonconst_leaf Value
  | ParenExpr _ X | StarExpr _ X | TypeAssertExpr _ X | UnaryExpr _ X =>
      nonconst_leaf X
  | SliceExpr _ X Low High Max =>
      nonconst_leaf X || from_option nonconst_leaf false Low
      || from_option nonconst_leaf false High
      || from_option nonconst_leaf false Max
  | SelectorExpr n _ Sel => negb (selconst n Sel)
  | BasicLit _ => false
  | Ident n => negb (constobj (ObjectOf ti n))
  | CallExpr _ _ Args => existsb nonconst_leaf Args
  | IndexExpr _ _ _ => false
  | OtherExpr _ _ => true
  end.

Lemma nonconst_leaf_composite x :
  composite x = true → nonconst_leaf x = existsb nonconst_leaf (operands x).
Proof.
  destruct x; try discriminate; intros _; simpl;
    rewrite ?orb_false_r; try reflexivity.
  destruct Low, High, Max; simpl; rewrite ?orb_false_r, ?orb_assoc; reflexivity.
Qed.

Lemma nonconst_leaf_verdict x : nonconst_leaf x = true → verdict x = false.
Proof.
  induction x as [x IH] using Expr_children_ind.
  destruct (composite x) eqn:Hc.
  - rewrite (nonconst_leaf_composite x Hc), (verdict_composite x Hc).
    unfold operands in *. rewrite Hc.
    intros (y & Hy & Hleaf)%existsb_exists.
    apply list_elem_of_In in Hy.
    rewrite Forall_forall in IH. apply IH in Hleaf; [|done].
    apply not_true_is_false. intros Hall.
    rewrite forallb_forall in Hall.
    apply list_elem_of_In, Hall in Hy. congruence.
  - destruct x as [| | | | | | |n X Sel|n|n|n Fun Args|n X I|n k];
      try discriminate; simpl; try done.
    + by intros ->%negb_true_iff.
    + by intros ->%negb_true_iff.
    + destruct Args as [|a [|]]; try done.
      simpl. rewrite orb_false_r. intros Ha.
      apply Forall_cons in IH as [_ [IHa _]%Forall_cons].
      rewrite (IHa Ha). apply andb_false_r.
Qed.

End Engine.

(** * The traversal driver and the pass-through registry *)

Section Driver.

Local Open Scope Z_scope.

Variable ti : Info.
Variable pp : node → string.
Variable printers : Object → PrintfKind.
Variable Pos End_ : node → Z.

Abbreviation visit := (visit ti pp printers Pos End_).
Abbreviation visitAll := (visitAll ti pp printers Pos End_).
Abbreviation visitCallExpr := (visitCallExpr ti pp printers Pos End_).
Abbreviation checkFormat := (checkFormat ti pp Pos End_).

(** ** [nthName] counts names across the fields *)

Lemma nthName_names_spec names nth i :
  i ≤ nth →
  nthName_names names nth i =
  match names !! Z.to_nat (nth - i) with
  | Some n => inl n
  | None => inr (i + Z.of_nat (length names))
  end.
Proof.
  revert i. induction names as [|n names IH]; intros i Hi; simpl.
  - f_equal. lia.
  - destruct (Z.eqb_spec i nth) as [->|Hne].
    + by rewrite Z.sub_diag.
    + rewrite IH by lia.
      replace (Z.to_nat (nth - i)) with (S (Z.to_nat (nth - (i + 1)))) by lia.
      simpl. destruct (names !! _); [done|]. f_equal. lia.
Qed.

Lemma nthName_from_spec flds nth i :
  i ≤ nth → nthName_from flds nth i = concat flds !! Z.to_nat (nth - i).
Proof.
  revert i. induction flds as [|fld flds IH]; intros i Hi; simpl; [done|].
  rewrite nthName_names_spec by done.
  destruct (fld !! Z.to_nat (nth - i)) as [n|] eqn:Hl.
  - by rewrite (lookup_app_l_Some _ _ _ _ Hl).
  - apply lookup_ge_None in Hl.
    rewrite IH by lia. rewrite lookup_app_r by lia. f_equal. lia.
Qed.

Lemma nthName_spec flds nth :
  0 ≤ nth → nthName flds nth = concat flds !! Z.to_nat nth.
Proof.
  intros H. unfold nthName. rewrite nthName_from_spec by done.
  by rewrite Z.sub_0_r.
Qed.

(** ** What a node does to the registry *)

(** The object [run] registers at a function declaration, if any. *)
Definition formatParam (Name : node) (Params : list (list node))
    : option Object :=
  match ObjectOf ti Name with
  | Some obj =>
      if (0 <=? fmtarg printers (Some obj))%Z then
        match nthName Params (fmtarg printers (Some obj)) with
        | Some id => ObjectOf ti id
        | None => None
        end
      else None
  | None => None
  end.

Definition target (lh : Expr) : gset positive :=
  match lh with
  | Ident id =>
      match ObjectOf ti id with Some obj => {[oid obj]} | None => ∅ end
  | _ => ∅
  end.

Definition registered (n : Node) : gset positive :=
  match n with
  | FuncDecl Name Params =>
      match formatParam Name Params with Some p => {[oid p]} | None => ∅ end
  | _ => ∅
  end.

Definition assigned (n : Node) : gset positive :=
  match n with
  | AssignStmt Lhs => ⋃ (target <$> Lhs)
  | _ => ∅
  end.

Lemma visitFuncDecl_spec Name Params st :
  visitFuncDecl ti printers Name Params st =
  match formatParam Name Params with
  | Some p => {| passthru := {[oid p]} ∪ passthru st;
                 reported := reported st; printed := printed st |}
  | None => st
  end.
Proof.
  unfold visitFuncDecl, formatParam.
  destruct (ObjectOf ti Name) as [obj|]; [|done].
  destruct (0 <=? _)%Z; [|done].
  by destruct (nthName _ _).
Qed.

Lemma visitAssignStmt_spec Lhs st :
  visitAssignStmt ti Lhs st =
  {| passthru := passthru st ∖ ⋃ (target <$> Lhs);
     reported := reported st; printed := printed st |}.
Proof.
  clear pp printers Pos End_.
  revert st. induction Lhs as [|lh Lhs IH]; intros st; simpl.
  - replace (passthru st ∖ ∅) with (passthru st) by set_solver.
    by destruct st.
  - rewrite IH. f_equal.
    + destruct lh; simpl; try set_solver.
      destruct (ObjectOf ti n); simpl; set_solver.
    + destruct lh; simpl; try done. by destruct (ObjectOf ti n).
    + destruct lh; simpl; try done. by destruct (ObjectOf ti n).
Qed.

Lemma checkFormat_passthru Fun arg st st' :
  checkFormat Fun arg st = Ok st' → passthru st' = passthru st.
Proof.
  unfold checkFormat. destruct arg;
    try (destruct (constlit _ _ _ _) as [[[] e]|]; by intros [= <-]).
  destruct (ObjectOf ti n) as [obj|]; [|done].
  destruct (okind obj); try by intros [= <-].
  case_decide; by intros [= <-].
Qed.

Lemma visitCallExpr_passthru b Fun Args st st' :
  visitCallExpr b Fun Args st = Ok st' → passthru st' = passthru st.
Proof.
  unfold visitCallExpr.
  destruct (checkargOf _ _ _) as [[i|]|]; [| by intros [= <-] | done].
  destruct (i <? 0)%Z; [by intros [= <-]|].
  destruct (b && _); [by intros [= <-]|].
  destruct (Args !! _); [|done]. apply checkFormat_passthru.
Qed.

Lemma visit_passthru b n st st' :
  visit b n st = Ok st' →
  passthru st' = (passthru st ∖ assigned n) ∪ registered n.
Proof.
  destruct n as [Name Params|Lhs|Fun Args]; simpl.
  - intros [= <-]. rewrite visitFuncDecl_spec.
    destruct (formatParam Name Params); simpl; set_solver.
  - intros [= <-]. rewrite visitAssignStmt_spec. simpl. set_solver.
  - intros ->%visitCallExpr_passthru. set_solver.
Qed.

Lemma visitAll_app b ns1 ns2 st st' :
  visitAll b (ns1 ++ ns2) st = Ok st' ↔
  ∃ st1, visitAll b ns1 st = Ok st1 ∧ visitAll b ns2 st1 = Ok st'.
Proof.
  revert st. induction ns1 as [|n ns1 IH]; intros st; simpl.
  - split; [by exists st | by intros (? & [= <-] & ?)].
  - destruct (visit b n st) as [st1|]; [apply IH|].
    split; [done | by intros (? & [=] & _)].
Qed.

(** An entry stays while nothing assigns to its symbol. *)
Lemma visitAll_keeps b ns : ∀ st st' o,
  visitAll b ns st = Ok st' →
  Forall (λ n, o ∉ assigned n) ns →
  o ∈ passthru st → o ∈ passthru st'.
Proof.
  induction ns as [|n ns IH]; intros st st' o; simpl.
  - by intros [= <-].
  - destruct (visit b n st) as [st1|] eqn:Hv; [|done].
    intros Hrest [Hn Hns]%Forall_cons Hin.
    apply (IH _ _ _ Hrest Hns).
    rewrite (visit_passthru _ _ _ _ Hv). set_solver.
Qed.

(** An entry stays out while no declaration registers its symbol. *)
Lemma visitAll_keeps_out b ns : ∀ st st' o,
  visitAll b ns st = Ok st' →
  Forall (λ n, o ∉ registered n) ns →
  o ∉ passthru st → o ∉ passthru st'.
Proof.
  induction ns as [|n ns IH]; intros st st' o; simpl.
  - by intros [= <-].
  - destruct (visit b n st) as [st1|] eqn:Hv; [|done].
    intros Hrest [Hn Hns]%Forall_cons Hout.
    apply (IH _ _ _ Hrest Hns).
    rewrite (visit_passthru _ _ _ _ Hv). set_solver.
Qed.

(** Every entry comes from a declaration visited before. *)
Lemma visitAll_origin b ns : ∀ st st' o,
  visitAll b ns st = Ok st' →
  o ∈ passthru st' →
  o ∈ passthru st ∨ ∃ n, n ∈ ns ∧ o ∈ registered n.
Proof.
  induction ns as [|n ns IH]; intros st st' o; simpl.
  - intros [= <-]. by left.
  - destruct (visit b n st) as [st1|] eqn:Hv; [|done].
    intros Hrest Hin.
    destruct (IH _ _ _ Hrest Hin) as [H1|(m & Hm & Ho)].
    + rewrite (visit_passthru _ _ _ _ Hv) in H1.
      apply elem_of_union in H1 as [H1|H1]; [left; set_solver|].
      right. exists n. split; [left | done].
    + right. exists m. split; [by right | done].
Qed.

End Driver.

(** * The package of the analyzer's tests

    Objects, nodes and renderings taken from [testdata/src/a/a.go], used
    for the examples below. *)

Module Testdata.

Definition obj (k : ObjKind) (i : positive) (p : Z) : Object :=
  {| okind := k; oid := i; opos := p |}.

Definition v1 := obj KVar 1 101.
Definition v2 := obj KVar 2 102.
Definition v3 := obj KVar 3 103.
Definition c1 := obj KConst 4 104.
Definition fmt := obj KPkgName 5 0.
Definition Sprintf := obj (KFunc 2) 6 0.
Definition Fprintf := obj (KFunc 3) 7 0.
Definition passthrough := obj (KFunc 2) 8 108.
Definition format := obj KVar 9 109.
Definition args := obj KVar 10 110.
Definition lookup := obj KVar 11 111.
Definition false_ := obj KConst 12 0.
Definition g := obj (KFunc 0) 13 113.
Definition string_ := obj KTypeName 14 0.
Definition complicated := obj (KFunc 4) 15 115.
Definition nameless := obj (KFunc 2) 16 116.

(** Identifier nodes are numbered 1 to 39, the other expressions from 40. *)
Definition ti : Info :=
  {| ObjectOf := λ n,
       match n with
       | 1 => Some v1 | 2 => Some v2 | 3 => Some v3 | 4 => Some c1
       | 5 => Some fmt | 6 => Some Sprintf | 7 => Some Fprintf
       | 8 => Some passthrough
       | 9 => Some format      (* the parameter's declaration *)
       | 10 => Some args
       | 11 => Some lookup | 12 => Some false_ | 13 => Some g
       | 14 => Some string_ | 15 => Some complicated
       | 16 => Some nameless
       | 19 => Some format     (* a use of the parameter *)
       | 20 => Some args
       | 21 => Some format     (* the target of [format = "blah"] *)
       | _ => None
       end%positive;
     Selections := λ _, None |}.

Definition printers (o : Object) : PrintfKind :=
  match oid o with
  | 6 | 7 | 8 | 15 | 16 => KindPrintf
  | _ => KindNone
  end%positive.

Definition pp (n : node) : string :=
  match n with
  | 1 => "v1" | 2 => "v2" | 3 => "v3" | 4 => "c1" | 5 => "fmt"
  | 6 => "Sprintf" | 7 => "Fprintf" | 8 => "passthrough"
  | 9 | 19 | 21 => "format" | 10 | 20 => "args"
  | 11 => "lookup" | 12 => "false" | 13 => "g" | 14 => "string"
  | 15 => "complicated" | 16 => "nameless"
  | 30 => "x" | 31 => "y"
  | 40 => "fmt.Sprintf" | 41 => "fmt.Fprintf"
  | 42 => "v1 + c1" | 43 => "(v1 + c1)"
  | 44 => "v1 + v2" | 45 => "v1 + v2 + v3"
  | 46 => "lookup[false]" | 47 => "g()"
  | 48 => "`abc`" | 49 => "string(`abc`)"
  | 50 => "x.y" | 51 => "`blah`"
  | _ => "?"
  end%positive.

Definition Pos (n : node) : Z := Z.pos n.
Definition End_ (n : node) : Z := Z.pos n + Z.of_nat (String.length (pp n)).

Definition fmt_Sprintf := SelectorExpr 40 (Ident 5) 6.
Definition fmt_Fprintf := SelectorExpr 41 (Ident 5) 7.
Definition v1_plus_c1 := BinaryExpr 42 (Ident 1) (Ident 4).
Definition paren_v1_plus_c1 := ParenExpr 43 v1_plus_c1.
Definition v1_v2_v3 := BinaryExpr 45 (BinaryExpr 44 (Ident 1) (Ident 2)) (Ident 3).
Definition lookup_false := IndexExpr 46 (Ident 11) (Ident 12).
Definition call_g := CallExpr 47 (Ident 13) [].
Definition string_abc := CallExpr 49 (Ident 14) [BasicLit 48].
Definition x_dot_y := SelectorExpr 50 (Ident 30) 31.

(** [func passthrough(format string, args ...interface{})] *)
Definition decl_passthrough := FuncDecl 8 [[9]; [10]]%positive.
(** [func complicated(a, b, format string, args ...interface{})] *)
Definition decl_complicated := FuncDecl 15 [[32; 33; 34]; [35]]%positive.
(** a printf-like function whose parameters have no names *)
Definition decl_nameless := FuncDecl 16 [[]; []].
(** [fmt.Sprintf(format, args...)] *)
Definition call_forward := CallNode fmt_Sprintf [Ident 19; Ident 20].
(** [format = "blah"] *)
Definition assign_format := AssignStmt [Ident 21].

Definition empty : EvalSt := {| bad := ∅; out := [] |}.

Abbreviation constlit := (constlit ti pp).
Abbreviation run := (run ti pp printers Pos End_).
Abbreviation visit := (visit ti pp printers Pos End_).

Definition messages (r : result Pass) : list string :=
  match r with Ok st => dMessage <$> reported st | Panic _ => [] end.

(** The expectations of the test file. *)
Example want_v1 :
  messages (run false [CallNode fmt_Sprintf [Ident 1]])
  = ["variable `v1` used for fmt.Sprintf format parameter"].
Proof. vm_compute. reflexivity. Qed.

Example want_v1_v2_v3 :
  messages (run false [CallNode fmt_Sprintf [v1_v2_v3]])
  = ["variable `v1 + v2 + v3` used for fmt.Sprintf format parameter"].
Proof. vm_compute. reflexivity. Qed.

Example want_v1_plus_c1 :
  messages (run false [CallNode fmt_Sprintf [v1_plus_c1]])
  = ["variable `v1` used for fmt.Sprintf format parameter"].
Proof. vm_compute. reflexivity. Qed.

Example want_paren_v1_plus_c1 :
  messages (run false [CallNode fmt_Sprintf [paren_v1_plus_c1]])
  = ["non-constant expression used for fmt.Sprintf format parameter"].
Proof. vm_compute. reflexivity. Qed.

Example want_lookup_false :
  messages (run false [CallNode fmt_Sprintf [lookup_false]])
  = ["variable `lookup[false]` used for fmt.Sprintf format parameter"].
Proof. vm_compute. reflexivity. Qed.

Example want_string_abc :
  messages (run false [CallNode fmt_Sprintf [string_abc]]) = [].
Proof. vm_compute. reflexivity. Qed.

Example want_passthrough :
  messages (run false [decl_passthrough; call_forward]) = [].
Proof. vm_compute. reflexivity. Qed.

Example want_modifiedpassthrough :
  messages (run false [decl_passthrough; call_forward; assign_format;
                       call_forward])
  = ["variable `format` used for fmt.Sprintf format parameter"].
Proof. vm_compute. reflexivity. Qed.

End Testdata.

(** * Properties of the analyzer *)

Lemma append_assoc (a b c : string) : (a ++ b) ++ c = a ++ b ++ c.
Proof.
  induction a as [|ch a IH]; [reflexivity|].
  change (String ch ((a ++ b) ++ c) = String ch (a ++ b ++ c)).
  by rewrite IH.
Qed.

Lemma eta_Pass st :
  {| passthru := passthru st; reported := reported st; printed := printed st |}
  = st.
Proof. by destruct st. Qed.

Section Claims.

Local Open Scope Z_scope.

Variable ti : Info.
Variable pp : node → string.
Variable printers : Object → PrintfKind.
Variable Pos End_ : node → Z.

Abbreviation constlit := (constlit ti pp).
Abbreviation visit := (visit ti pp printers Pos End_).
Abbreviation visitAll := (visitAll ti pp printers Pos End_).
Abbreviation run := (run ti pp printers Pos End_).
Abbreviation visitCallExpr := (visitCallExpr ti pp printers Pos End_).
Abbreviation checkFormat := (checkFormat ti pp Pos End_).
Abbreviation checkargOf := (checkargOf ti printers).

(** What is left of the pass when the format argument is not a bare
    identifier: only [pt] may have printed. *)
Definition after_eval (st : Pass) (e : EvalSt) : Pass :=
  {| passthru := passthru st; reported := reported st; printed := out e |}.

Definition general_message (text fn : string) : string :=
  text ++ " used for " ++ fn ++ " format parameter".

Lemma visitCallExpr_checked b Fun Args st i arg :
  checkargOf Fun = Ok (Some i) → 0 ≤ i →
  b && (Z.of_nat (length Args) - 1 >? i) = false →
  Args !! Z.to_nat i = Some arg →
  visitCallExpr b Fun Args st = checkFormat Fun arg st.
Proof.
  intros Hc Hi Hb Ha. unfold visitCallExpr. rewrite Hc.
  destruct (Z.ltb_spec i 0); [lia|]. by rewrite Hb, Ha.
Qed.

(** C4: an indexing expression is always judged non-constant, whatever
    its container and key are, and the only culprit its evaluation
    records is the indexing expression itself; as a format argument it
    is reported with that single culprit. *)
Theorem index_sole_culprit n X Index :
  (∀ s, constlit (IndexExpr n X Index) s
        = Ok (false, {| bad := {[n]} ∪ bad s; out := out s |})) ∧
  (∀ Fun st, checkFormat Fun (IndexExpr n X Index) st
     = Ok (report
             {| dPos := Pos n; dEnd := End_ n;
                dMessage := general_message (culprit_msg pp {[n]})
                                            (pp (nodeOf Fun));
                dRelated := [related_of pp Pos End_ n] |} st)).
Proof.
  split; [done|]. intros Fun st. unfold checkFormat. simpl.
  replace ({[n]} ∪ ∅ : gset node) with ({[n]} : gset node) by set_solver.
  rewrite elements_singleton, eta_Pass. reflexivity.
Qed.

(** ** Constant expressions *)


(** The symbol named by a callee that is an identifier or a member
    access. *)
Definition callee_name (Fun : Expr) : option Object :=
  match Fun with
  | Ident id => ObjectOf ti id
  | SelectorExpr _ _ Sel => ObjectOf ti Sel
  | _ => None
  end.





(** C8: an expression that holds a non-constant leaf outside any
    indexing expression is judged non-constant, and the culprits
    collected by its evaluation are not empty. *)
Theorem nonconst_leaf_nonconstant x s :
  nonconst_leaf ti x = true → resolved ti x = true →
  ∃ s', constlit x s = Ok (false, s') ∧ bad s' ≠ ∅.
Proof.
  intros Hleaf Hr.
  destruct (constlit_total ti pp x Hr s) as (s' & Hs).
  rewrite (nonconst_leaf_verdict ti x Hleaf) in Hs.
  exists s'. split; [done|]. by eapply constlit_false.
Qed.

(** C9, as the code has it: a checked call whose format argument is
    non-constant and not a bare identifier gets one more diagnostic.  Its
    message names the culprit when there is exactly one and the length of
    its text, in bytes, is below 32, and is the general one otherwise;
    every culprit is attached as a related note. *)
Theorem general_diagnostic b Fun Args st i arg e :
  checkargOf Fun = Ok (Some i) → 0 ≤ i →
  b && (Z.of_nat (length Args) - 1 >? i) = false →
  Args !! Z.to_nat i = Some arg →
  (∀ id, arg ≠ Ident id) →
  constlit arg {| bad := ∅; out := printed st |} = Ok (false, e) →
  ∃ st' d, visitCallExpr b Fun Args st = Ok st' ∧
    reported st' = (reported st ++ [d])%list ∧
    passthru st' = passthru st ∧
    (∀ x, bad e = {[x]} → (String.length (pp x) < 32)%nat →
       dMessage d = "variable `" ++ pp x ++ "` used for "
                    ++ pp (nodeOf Fun) ++ " format parameter") ∧
    (∀ x, bad e = {[x]} → (32 ≤ String.length (pp x))%nat →
       dMessage d = "non-constant expression used for "
                    ++ pp (nodeOf Fun) ++ " format parameter") ∧
    ((1 < size (bad e))%nat →
       dMessage d = "non-constant expression used for "
                    ++ pp (nodeOf Fun) ++ " format parameter") ∧
    (∀ x, x ∈ bad e →
       {| rPos := Pos x; rEnd := End_ x;
          rMessage := "Non-constant: " ++ pp x |} ∈ dRelated d) ∧
    length (dRelated d) = size (bad e).
Proof.
  intros Hc Hi Hb Ha Hid He.
  rewrite (visitCallExpr_checked _ _ _ _ _ _ Hc Hi Hb Ha).
  eexists _, _. split.
  { unfold checkFormat.
    destruct arg; try (by rewrite He); by destruct (Hid n). }
  split; [reflexivity|]. split; [reflexivity|].
  simpl. unfold culprit_msg. repeat split.
  - intros x ->. rewrite elements_singleton. intros Hlt.
    destruct (Z.ltb_spec (Z.of_nat (String.length (pp x))) 32); [|lia].
    by rewrite !append_assoc.
  - intros x ->. rewrite elements_singleton. intros Hge.
    by destruct (Z.ltb_spec (Z.of_nat (String.length (pp x))) 32); [lia|].
  - unfold size, set_size. simpl.
    destruct (elements (bad e)) as [|x [|y l]]; simpl; [done|lia|done].
  - intros x Hx. apply list_elem_of_fmap. exists x.
    split; [done | by apply elem_of_elements].
  - by rewrite length_fmap.
Qed.

(** ** The combination rule *)

(** C2, as the code has it: when every operand of a composite form is
    judged non-constant, the form is judged non-constant, the operands'
    own nodes are taken out of the culprits and the form itself is put
    in; what the evaluation of the operands recorded below them stays. *)
Theorem all_nonconstant_collapse x s :
  composite x = true →
  Forall (judged ti pp false) (operands x) →
  ∃ s1 s',
    combine_loop constlit (operands x) true true s = Ok ((false, true), s1) ∧
    constlit x s = Ok (false, s') ∧
    bad s' = {[nodeOf x]} ∪ (bad s1 ∖ list_to_set (nodeOf <$> operands x)) ∧
    nodeOf x ∈ bad s' ∧
    (nodeOf x ∉ nodeOf <$> operands x →
     ∀ o, o ∈ operands x → nodeOf o ∉ bad s').
Proof.
  intros Hc Hops.
  assert (Htot : Forall (λ y, ∀ s, ∃ b s', constlit y s = Ok (b, s'))
                        (operands x)).
  { eapply Forall_impl; [exact Hops|]. intros y Hy s0.
    destruct (Hy s0) as (s' & ->). by eexists _, _. }
  destruct (combine_loop_total _ _ Htot true true s) as ([g a] & s1 & Hloop).
  assert (Hflags : g = false ∧ a = true).
  { eapply combine_loop_verdicts in Hloop as [-> ->];
      [|eapply Forall_impl; [exact Htot|]; intros y _ s0 b s';
        apply constlit_verdict].
    pose proof (operands_nonempty x Hc) as Hne.
    induction Hops as [|y ys Hy Hys IH]; [done|]. simpl.
    rewrite (judged_verdict _ _ _ _ Hy). simpl. split; [done|].
    destruct ys as [|z zs]; [done|].
    apply IH; [by inversion Htot | done]. }
  destruct Hflags as [-> ->].
  exists s1, {| bad := {[nodeOf x]}
                       ∪ (bad s1 ∖ list_to_set (nodeOf <$> operands x));
                out := out s1 |}.
  split; [done|]. split.
  { rewrite (constlit_composite ti pp x Hc). unfold combine, bind.
    rewrite Hloop. simpl. unfold bind. by rewrite unmark_all_spec. }
  simpl. split; [done|]. split; [set_solver|].
  intros Hparent o Ho Hin.
  assert (nodeOf o ∈ nodeOf <$> operands x) as Hon
    by (apply list_elem_of_fmap; eauto).
  apply elem_of_union in Hin as [Hin|Hin].
  - apply elem_of_singleton in Hin. congruence.
  - apply elem_of_difference in Hin as [_ Hout].
    apply Hout, elem_of_list_to_set, Hon.
Qed.

(** ** The [SuppressNoArgs] option *)

(** C1, as the code has it: with [SuppressNoArgs] set, a call that
    passes values after the format string is skipped, and a call that
    passes none is checked as it is without the option. *)
Theorem suppress_skips_calls_with_values Fun Args st i :
  checkargOf Fun = Ok (Some i) →
  (Z.of_nat (length Args) - 1 > i → visitCallExpr true Fun Args st = Ok st) ∧
  (Z.of_nat (length Args) - 1 ≤ i →
   visitCallExpr true Fun Args st = visitCallExpr false Fun Args st).
Proof.
  intros Hc. unfold visitCallExpr. rewrite Hc. split; intros Hn.
  - destruct (i <? 0); [done|]. simpl.
    by destruct (Z.gtb_spec (Z.of_nat (length Args) - 1) i); [|lia].
  - simpl. by destruct (Z.gtb_spec (Z.of_nat (length Args) - 1) i); [lia|].
Qed.

(** ** The pass-through registry *)

Definition variable_diagnostic (Fun : Expr) (a : node) (p : Object)
    : Diagnostic :=
  {| dPos := Pos a; dEnd := End_ a;
     dMessage := "variable `" ++ pp a ++ "` used for "
                 ++ pp (nodeOf Fun) ++ " format parameter";
     dRelated := [ {| rPos := opos p; rEnd := 0;
                      rMessage := "defined here" |} ] |}.

Lemma checkFormat_registered Fun a p st :
  ObjectOf ti a = Some p → okind p = KVar → oid p ∈ passthru st →
  checkFormat Fun (Ident a) st = Ok st.
Proof.
  intros Ha Hk Hin. unfold checkFormat. rewrite Ha, Hk.
  by case_decide.
Qed.

Lemma checkFormat_unregistered Fun a p st :
  ObjectOf ti a = Some p → okind p = KVar → oid p ∉ passthru st →
  checkFormat Fun (Ident a) st = Ok (report (variable_diagnostic Fun a p) st).
Proof.
  intros Ha Hk Hin. unfold checkFormat. rewrite Ha, Hk.
  by case_decide.
Qed.

Lemma formatParam_spec Name Params f i :
  ObjectOf ti Name = Some f → fmtarg printers (Some f) = i → 0 ≤ i →
  formatParam ti printers Name Params
  = (concat Params !! Z.to_nat i) ≫= ObjectOf ti.
Proof.
  intros Hf Hi Hpos. unfold formatParam. rewrite Hf, Hi.
  destruct (Z.leb_spec 0 i); [|lia].
  rewrite nthName_spec by done. by destruct (concat Params !! _).
Qed.

(** C3, as the code has it: inside a function declared format-consuming
    at index [i], a call that forwards the [i]-th parameter as a bare
    identifier is not reported while no assignment statement has had the
    parameter as a bare-identifier target; once one has, the call gets
    the diagnostic naming the identifier, unless [SuppressNoArgs] skips
    it for the values it passes. *)
Theorem passthrough_exemption b pre Name Params f i id p Fun Args j a st :
  ObjectOf ti Name = Some f → fmtarg printers (Some f) = i → 0 ≤ i →
  concat Params !! Z.to_nat i = Some id → ObjectOf ti id = Some p →
  okind p = KVar →
  checkargOf Fun = Ok (Some j) → 0 ≤ j →
  Args !! Z.to_nat j = Some (Ident a) → ObjectOf ti a = Some p →
  (∀ body,
     run b (pre ++ FuncDecl Name Params :: body) = Ok st →
     Forall (λ n, oid p ∉ assigned ti n) body →
     visit b (CallNode Fun Args) st = Ok st) ∧
  (∀ body1 Lhs body2,
     run b (pre ++ FuncDecl Name Params :: body1 ++ AssignStmt Lhs :: body2)
       = Ok st →
     oid p ∈ assigned ti (AssignStmt Lhs) →
     Forall (λ n, oid p ∉ registered ti printers n) body2 →
     b && (Z.of_nat (length Args) - 1 >? j) = false →
     ∃ st', visit b (CallNode Fun Args) st = Ok st' ∧
       reported st' = (reported st ++ [variable_diagnostic Fun a p])%list ∧
       passthru st' = passthru st).
Proof.
  intros Hf Hi Hpos Hid Hp Hk Hc Hj Harg Ha.
  assert (Hfp : formatParam ti printers Name Params = Some p).
  { rewrite (formatParam_spec _ _ _ _ Hf Hi Hpos), Hid. exact Hp. }
  split.
  - intros body Hrun Hbody. simpl.
    assert (oid p ∈ passthru st) as Hin.
    { unfold run in Hrun.
      apply visitAll_app in Hrun as (st1 & _ & Hrun). simpl in Hrun.
      eapply visitAll_keeps; [exact Hrun | exact Hbody |].
      rewrite visitFuncDecl_spec, Hfp. simpl. set_solver. }
    destruct (b && (Z.of_nat (length Args) - 1 >? j)) eqn:Hb.
    + unfold visitCallExpr. rewrite Hc.
      destruct (Z.ltb_spec j 0); [lia|]. by rewrite Hb.
    + rewrite (visitCallExpr_checked _ _ _ _ _ _ Hc Hj Hb Harg).
      by apply (checkFormat_registered Fun a p st Ha Hk).
  - intros body1 Lhs body2 Hrun Hassign Hbody2 Hb. simpl.
    rewrite (visitCallExpr_checked _ _ _ _ _ _ Hc Hj Hb Harg).
    rewrite (checkFormat_unregistered Fun a p st Ha Hk).
    + eexists. split; [reflexivity|]. split; reflexivity.
    + unfold run in Hrun.
      apply visitAll_app in Hrun as (st1 & _ & Hrun). simpl in Hrun.
      apply visitAll_app in Hrun as (st2 & _ & Hrun). simpl in Hrun.
      eapply visitAll_keeps_out; [exact Hrun | exact Hbody2 |].
      rewrite visitAssignStmt_spec. simpl. simpl in Hassign. set_solver.
Qed.

(** C10: a declaration classified format-consuming at an index where it
    declares no parameter name registers nothing, and a bare identifier
    passed as the format of a checked call in its body gets the
    diagnostic naming it, like any variable that is not registered. *)
Theorem unnamed_format_parameter b pre Name Params f i body Fun Args j a p st :
  ObjectOf ti Name = Some f → fmtarg printers (Some f) = i → 0 ≤ i →
  concat Params !! Z.to_nat i = None →
  (∀ st0, visitFuncDecl ti printers Name Params st0 = st0) ∧
  (run b (pre ++ FuncDecl Name Params :: body) = Ok st →
   Forall (λ n, oid p ∉ registered ti printers n) (pre ++ body) →
   checkargOf Fun = Ok (Some j) → 0 ≤ j →
   Args !! Z.to_nat j = Some (Ident a) →
   ObjectOf ti a = Some p → okind p = KVar →
   b && (Z.of_nat (length Args) - 1 >? j) = false →
   ∃ st', visit b (CallNode Fun Args) st = Ok st' ∧
     reported st' = (reported st ++ [variable_diagnostic Fun a p])%list ∧
     passthru st' = passthru st).
Proof.
  intros Hf Hi Hpos Hnone.
  assert (Hfp : formatParam ti printers Name Params = None).
  { by rewrite (formatParam_spec _ _ _ _ Hf Hi Hpos), Hnone. }
  split.
  - intros st0. by rewrite visitFuncDecl_spec, Hfp.
  - intros Hrun Hreg Hc Hj Harg Ha Hk Hb. simpl.
    rewrite (visitCallExpr_checked _ _ _ _ _ _ Hc Hj Hb Harg).
    rewrite (checkFormat_unregistered Fun a p st Ha Hk).
    + eexists. split; [reflexivity|]. split; reflexivity.
    + eapply visitAll_keeps_out; [exact Hrun | | simpl; set_solver].
      apply Forall_app in Hreg as [Hpre Hbody].
      apply Forall_app. split; [done|]. constructor; [|done].
      simpl. rewrite Hfp. set_solver.
Qed.

(** C6, as the code has it: the registry belongs to the whole run.  Each
    entry is the format parameter of a function declaration visited
    before, and an entry present before a node is visited is still
    there afterwards unless the node is an assignment to its symbol; a
    function declaration clears nothing. *)
Theorem registry_scope b ns st :
  run b ns = Ok st →
  (∀ o, o ∈ passthru st →
     ∃ Name Params p, FuncDecl Name Params ∈ ns ∧
       formatParam ti printers Name Params = Some p ∧ oid p = o) ∧
  (∀ n st' o, visit b n st = Ok st' → o ∈ passthru st → o ∉ passthru st' →
     ∃ Lhs, n = AssignStmt Lhs ∧ o ∈ assigned ti n).
Proof.
  intros Hrun. split.
  - intros o Ho.
    destruct (visitAll_origin _ _ _ _ _ _ _ _ _ _ Hrun Ho)
      as [Hin|(n & Hn & Hreg)]; [set_solver|].
    destruct n as [Name Params| |]; simpl in Hreg; [|set_solver..].
    destruct (formatParam ti printers Name Params) as [p|] eqn:Hp;
      [|set_solver].
    exists Name, Params, p. set_solver.
  - intros n st' o Hv Hin Hout.
    rewrite (visit_passthru _ _ _ _ _ _ _ _ _ Hv) in Hout.
    destruct n as [|Lhs|]; simpl in Hout; [set_solver| |set_solver].
    exists Lhs. split; [done|]. simpl.
    destruct (decide (o ∈ ⋃ (target ti <$> Lhs))); [done|set_solver].
Qed.

(** ** When a visit returns

    An unrecognised kind of expression is judged non-constant and
    reported through [pt]; a call is visited without a panic when its
    callee and the member accesses of its format argument are resolved,
    the format index is within the argument list, and a bare identifier
    passed as the format has an object. *)

Lemma unrecognised_degrades n k s :
  constlit (OtherExpr n k) s
  = Ok (false, {| bad := {[n]} ∪ bad s;
                  out := out s ++ [("unhandled constlit " ++ pp n) ++ " "
                                   ++ otherTypeName k] |}).
Proof. reflexivity. Qed.

Definition format_resolved (arg : Expr) : Prop :=
  match arg with
  | Ident id => ObjectOf ti id ≠ None
  | _ => resolved ti arg = true
  end.

Lemma checkFormat_returns Fun arg st :
  format_resolved arg → ∃ st', checkFormat Fun arg st = Ok st'.
Proof.
  intros Hr. unfold checkFormat.
  destruct arg; simpl in Hr;
    try (match goal with
         | |- context [constlit ?x ?s] =>
             destruct (constlit_total ti pp x Hr s) as (s' & ->)
         end; destruct (verdict ti _); by eexists).
  destruct (ObjectOf ti n) as [obj|]; [|done].
  destruct (okind obj); try by eexists.
  case_decide; by eexists.
Qed.

Lemma visitCallExpr_returns b Fun Args st :
  (∀ n X Sel, Fun = SelectorExpr n X Sel → selresolved ti n Sel = true) →
  (∀ i, checkargOf Fun = Ok (Some i) → 0 ≤ i →
        b && (Z.of_nat (length Args) - 1 >? i) = false →
        ∃ arg, Args !! Z.to_nat i = Some arg ∧ format_resolved arg) →
  ∃ st', visitCallExpr b Fun Args st = Ok st'.
Proof.
  intros Hsel Harg. unfold visitCallExpr.
  destruct (checkargOf Fun) as [[i|]|msg] eqn:Hc; [| by eexists |].
  - destruct (Z.ltb_spec i 0); [by eexists|].
    destruct (b && _) eqn:Hb; [by eexists|].
    destruct (Harg i eq_refl ltac:(lia) Hb) as (arg & -> & Hr).
    by apply checkFormat_returns.
  - destruct Fun; try discriminate; [|by destruct k]. simpl in Hc.
    specialize (Hsel _ _ _ eq_refl). unfold selresolved in Hsel.
    by destruct (selobj ti n Sel).
Qed.

End Claims.

(** * The specification's wording, where the code differs *)

Section Wording.

Local Open Scope Z_scope.

Variable ti : Info.
Variable pp : node → string.
Variable printers : Object → PrintfKind.
Variable Pos End_ : node → Z.

(** C1 as worded: with [SuppressNoArgs] set, a call that passes nothing
    after the format string is not reported. *)
Definition suppress_noargs_claim : Prop :=
  ∀ Fun Args i st st',
    checkargOf ti printers Fun = Ok (Some i) → 0 ≤ i →
    Z.of_nat (length Args) - 1 = i →
    visitCallExpr ti pp printers Pos End_ true Fun Args st = Ok st' →
    reported st' = reported st.

(** C2 as worded: when all operands of a composite form are judged
    non-constant, the form is the only culprit left for it. *)
Definition sole_culprit_claim : Prop :=
  ∀ x s',
    composite x = true →
    Forall (judged ti pp false) (operands x) →
    constlit ti pp x {| bad := ∅; out := [] |} = Ok (false, s') →
    bad s' = {[nodeOf x]}.

(** The nodes of a file in traversal order, as far as assignments are
    concerned: those the filter of [run] lets through, and range
    statements [for Key, Value = range X], whose clause assigns to [Key]
    and [Value] when [Assign] holds (the token is [=]) and declares them
    otherwise. *)
Inductive AstNode :=
  | Filtered (n : Node)
  | RangeStmt (Key Value : option Expr) (Assign : bool).

(** [inspect.Preorder(callFilter, f)] calls [f] on the nodes of the three
    filtered types only. *)
Definition Preorder (file : list AstNode) : list Node :=
  omap (λ a, match a with Filtered n => Some n | RangeStmt _ _ _ => None end)
       file.

(** The symbol that a target expression assigns to: an identifier,
    possibly in parentheses. *)
Fixpoint target_symbol (lh : Expr) : option Object :=
  match lh with
  | Ident id => ObjectOf ti id
  | ParenExpr _ X => target_symbol X
  | _ => None
  end.

Definition target_symbols (lhs : list Expr) : gset positive :=
  list_to_set (oid <$> omap target_symbol lhs).

(** The symbols that appear as assignment targets in a node. *)
Definition assignment_targets (a : AstNode) : gset positive :=
  match a with
  | Filtered (AssignStmt Lhs) => target_symbols Lhs
  | RangeStmt Key Value true => target_symbols (opt_list Key ++ opt_list Value)
  | _ => ∅
  end.

(** C3 as worded, second sentence: once the forwarded parameter has been
    an assignment target, the inner call is reported. *)
Definition reassigned_reported_claim : Prop :=
  ∀ b pre Name Params f i id p body1 a body2 Fun Args j x st,
    ObjectOf ti Name = Some f → fmtarg printers (Some f) = i → 0 ≤ i →
    concat Params !! Z.to_nat i = Some id → ObjectOf ti id = Some p →
    okind p = KVar →
    checkargOf ti printers Fun = Ok (Some j) → 0 ≤ j →
    Args !! Z.to_nat j = Some (Ident x) → ObjectOf ti x = Some p →
    run ti pp printers Pos End_ b
      (Preorder (pre ++ Filtered (FuncDecl Name Params) :: body1 ++ a :: body2))
      = Ok st →
    oid p ∈ assignment_targets a →
    Forall (λ n, oid p ∉ registered ti printers n) (Preorder body2) →
    ∃ st' d, visit ti pp printers Pos End_ b (CallNode Fun Args) st = Ok st' ∧
      reported st' = (reported st ++ [d])%list.

(** Go strings hold UTF-8: a character is one byte that is not a
    continuation byte (of the form 10xxxxxx), followed by its
    continuation bytes. *)
Definition continuation (c : Ascii.ascii) : bool :=
  (128 <=? Ascii.nat_of_ascii c)%nat && (Ascii.nat_of_ascii c <? 192)%nat.

Fixpoint characters (s : string) : nat :=
  match s with
  | EmptyString => 0
  | String c s' => ((if continuation c then 0 else 1) + characters s')%nat
  end.

(** C9 as worded, first case: a single culprit whose rendered text is
    shorter than 32 characters is named in the message. *)
Definition short_culprit_named_claim : Prop :=
  ∀ b Fun Args st i arg e x st' d,
    checkargOf ti printers Fun = Ok (Some i) → 0 ≤ i →
    b && (Z.of_nat (length Args) - 1 >? i) = false →
    Args !! Z.to_nat i = Some arg →
    (∀ id, arg ≠ Ident id) →
    constlit ti pp arg {| bad := ∅; out := printed st |} = Ok (false, e) →
    bad e = {[x]} → (characters (pp x) < 32)%nat →
    visitCallExpr ti pp printers Pos End_ b Fun Args st = Ok st' →
    reported st' = (reported st ++ [d])%list →
    dMessage d = "variable `" ++ pp x ++ "` used for "
                 ++ pp (nodeOf Fun) ++ " format parameter".

(** C6 as worded: an entry registered for one function is gone when the
    body of another function is traversed. *)
Definition registry_cleared_claim : Prop :=
  ∀ b pre Name Params body Name' Params' p st,
    run ti pp printers Pos End_ b
      (pre ++ FuncDecl Name Params :: body ++ [FuncDecl Name' Params']) = Ok st →
    formatParam ti printers Name Params = Some p →
    formatParam ti printers Name' Params' ≠ Some p →
    oid p ∉ passthru st.

End Wording.

(** * The analyzer on the test package *)

Section OnTestdata.

Local Open Scope Z_scope.

Import Testdata.

Abbreviation checkargOf' := (checkargOf ti printers).
Abbreviation visitCallExpr' := (visitCallExpr ti pp printers Pos End_).

(** With the option set, [fmt.Sprintf(v1)] is still reported. *)
Lemma suppress_noargs_reports_bare_call :
  ¬ suppress_noargs_claim ti pp printers Pos End_.
Proof.
  intros H.
  specialize (H fmt_Sprintf [Ident 1] 0 start _ eq_refl ltac:(lia) eq_refl eq_refl).
  discriminate H.
Qed.

Lemma suppress_skips_calls_with_values_witness :
  checkargOf' fmt_Sprintf = Ok (Some 0) ∧
  (Z.of_nat (length [Ident 1; Ident 2]) - 1 > 0 ∧
   visitCallExpr' true fmt_Sprintf [Ident 1; Ident 2] start = Ok start) ∧
  (Z.of_nat (length [Ident 1]) - 1 ≤ 0 ∧
   visitCallExpr' true fmt_Sprintf [Ident 1] start
   = visitCallExpr' false fmt_Sprintf [Ident 1] start).
Proof.
  split; [reflexivity|]. split; (split; [simpl; lia|]).
  - apply (proj1 (suppress_skips_calls_with_values ti pp printers Pos End_
                    fmt_Sprintf [Ident 1; Ident 2] start 0 eq_refl)).
    simpl. lia.
  - apply (proj2 (suppress_skips_calls_with_values ti pp printers Pos End_
                    fmt_Sprintf [Ident 1] start 0 eq_refl)).
    simpl. lia.
Defined.

(** [(v1 + c1)]: the parenthesised form and [v1] are both culprits. *)
Lemma collapse_keeps_inner_culprit : ¬ sole_culprit_claim ti pp.
Proof.
  intros H.
  assert (Hj : Forall (judged ti pp false) (operands paren_v1_plus_c1)).
  { constructor; [|constructor].
    exact (resolved_judged ti pp v1_plus_c1 eq_refl). }
  specialize (H paren_v1_plus_c1 _ eq_refl Hj eq_refl).
  assert (1%positive ∈ ({[nodeOf paren_v1_plus_c1]} : gset node)) as Hin.
  { rewrite <-H. apply (bool_decide_unpack _). vm_compute. exact I. }
  apply elem_of_singleton in Hin. discriminate Hin.
Qed.

Lemma all_nonconstant_collapse_witness :
  composite v1_v2_v3 = true ∧
  Forall (judged ti pp false) (operands v1_v2_v3) ∧
  ∃ s', constlit v1_v2_v3 empty = Ok (false, s') ∧
        nodeOf v1_v2_v3 ∈ bad s' ∧
        ∀ o, o ∈ operands v1_v2_v3 → nodeOf o ∉ bad s'.
Proof.
  assert (Hj : Forall (judged ti pp false) (operands v1_v2_v3)).
  { constructor; [|constructor; [|constructor]].
    - exact (resolved_judged ti pp (BinaryExpr 44 (Ident 1) (Ident 2)) eq_refl).
    - exact (resolved_judged ti pp (Ident 3) eq_refl). }
  split; [reflexivity|]. split; [exact Hj|].
  destruct (all_nonconstant_collapse ti pp v1_v2_v3 empty eq_refl Hj)
    as (s1 & s' & _ & Hs' & _ & Hin & Hout).
  exists s'. split; [exact Hs'|]. split; [exact Hin|].
  apply Hout. apply (bool_decide_unpack _). vm_compute. exact I.
Defined.

(** [v1 + v2 + v3] collapses to the whole sum. *)
Example collapse_v1_v2_v3 :
  constlit v1_v2_v3 empty = Ok (false, {| bad := {[45%positive]}; out := [] |}).
Proof. vm_compute. reflexivity. Qed.

(** [for format = range names] after the forwarding call of
    [passthrough]: the clause assigns to the parameter, the traversal
    never sees it, and the next forwarding call is not reported. *)
Lemma range_target_keeps_exemption :
  ¬ reassigned_reported_claim ti pp printers Pos End_.
Proof.
  intros H.
  destruct (H false [] 8%positive [[9]; [10]]%positive passthrough 0
              9%positive format [Filtered call_forward]
              (RangeStmt (Some (Ident 21)) None true) []
              fmt_Sprintf [Ident 19; Ident 20] 0 19%positive
              (visitFuncDecl ti printers 8 [[9]; [10]]%positive start)
              eq_refl eq_refl ltac:(lia) eq_refl eq_refl eq_refl
              eq_refl ltac:(lia) eq_refl eq_refl)
    as (st' & d & Hv & Hd).
  - vm_compute. reflexivity.
  - apply (bool_decide_unpack _). vm_compute. exact I.
  - constructor.
  - assert (Hst : visit false (CallNode fmt_Sprintf [Ident 19; Ident 20])
                    (visitFuncDecl ti printers 8 [[9]; [10]]%positive start)
                  = Ok (visitFuncDecl ti printers 8 [[9]; [10]]%positive start))
      by (vm_compute; reflexivity).
    rewrite Hst in Hv. injection Hv as <-.
    apply (f_equal length) in Hd. rewrite length_app in Hd.
    simpl in Hd. lia.
Qed.

(** The same parameter in parentheses, [(format) = `blah`], is an
    assignment statement that the traversal sees and passes over. *)
Example parenthesised_target_keeps_exemption :
  messages (run false [decl_passthrough; call_forward;
                       AssignStmt [ParenExpr 53 (Ident 21)]; call_forward])
  = [].
Proof. vm_compute. reflexivity. Qed.

(** With the option set, the call after [format = `blah`] is skipped
    for the values it passes. *)
Example suppressed_after_reassignment :
  messages (run true [decl_passthrough; call_forward; assign_format;
                      call_forward])
  = [].
Proof. vm_compute. reflexivity. Qed.

Lemma passthrough_exemption_witness :
  (∃ st, run false [decl_passthrough] = Ok st ∧
         visit false call_forward st = Ok st) ∧
  (∃ st, run false [decl_passthrough; call_forward; assign_format] = Ok st ∧
     ∃ st', visit false call_forward st = Ok st' ∧
       reported st'
       = (reported st
          ++ [variable_diagnostic pp Pos End_ fmt_Sprintf 19 format])%list ∧
       passthru st' = passthru st).
Proof.
  split.
  - eexists. split; [reflexivity|].
    apply (proj1 (passthrough_exemption ti pp printers Pos End_ false []
                    8%positive [[9]; [10]]%positive passthrough 0 9%positive
                    format fmt_Sprintf [Ident 19; Ident 20] 0 19%positive _
                    eq_refl eq_refl ltac:(lia) eq_refl eq_refl eq_refl
                    eq_refl ltac:(lia) eq_refl eq_refl) []).
    + reflexivity.
    + constructor.
  - eexists. split; [reflexivity|].
    apply (proj2 (passthrough_exemption ti pp printers Pos End_ false []
                    8%positive [[9]; [10]]%positive passthrough 0 9%positive
                    format fmt_Sprintf [Ident 19; Ident 20] 0 19%positive _
                    eq_refl eq_refl ltac:(lia) eq_refl eq_refl eq_refl
                    eq_refl ltac:(lia) eq_refl eq_refl)
                 [call_forward] [Ident 21] []).
    + reflexivity.
    + apply (bool_decide_unpack _). vm_compute. exact I.
    + constructor.
    + reflexivity.
Defined.

(** C5 fails on the code: [fmt.Fprintf(g())] has one argument expression
    and format index 1; a member access or a bare identifier without
    object and selection is dereferenced. *)
Theorem short_call_panics :
  run false [CallNode fmt_Fprintf [call_g]] = Panic index_out_of_range ∧
  run true [CallNode fmt_Fprintf [call_g]] = Panic index_out_of_range ∧
  run false [CallNode fmt_Sprintf [BinaryExpr 52 (Ident 1) x_dot_y]]
    = Panic nil_deref ∧
  run false [CallNode x_dot_y [Ident 1]] = Panic nil_deref ∧
  run false [CallNode fmt_Sprintf [Ident 30]] = Panic nil_deref.
Proof. repeat split; vm_compute; reflexivity. Qed.

(** The entry of [passthrough] is still there when the next declaration
    has been entered. *)
Lemma registry_survives_next_declaration :
  ¬ registry_cleared_claim ti pp printers Pos End_.
Proof.
  intros H.
  refine (H false [] 8%positive [[9]; [10]]%positive [call_forward]
            16%positive [[]; []] format _ eq_refl eq_refl _ _).
  - discriminate.
  - apply (bool_decide_unpack _). vm_compute. exact I.
Qed.

Lemma registry_scope_witness :
  ∃ st st', run false [decl_passthrough; call_forward; decl_nameless] = Ok st ∧
    visit false assign_format st = Ok st' ∧
    (∀ o, o ∈ passthru st →
       ∃ Name Params p,
         FuncDecl Name Params ∈ [decl_passthrough; call_forward; decl_nameless] ∧
         formatParam ti printers Name Params = Some p ∧ oid p = o) ∧
    (oid format ∈ passthru st ∧ (oid format ∉ passthru st') ∧
     ∃ Lhs, assign_format = AssignStmt Lhs ∧ oid format ∈ assigned ti assign_format).
Proof.
  eexists. eexists. split; [reflexivity|]. split; [reflexivity|]. split.
  - apply (proj1 (registry_scope ti pp printers Pos End_ false
                    [decl_passthrough; call_forward; decl_nameless] _ eq_refl)).
  - assert (Hin : oid format ∈ passthru
             (visitFuncDecl ti printers 16 [[]; []]
                (visitFuncDecl ti printers 8 [[9]; [10]]%positive start)))
      by (apply (bool_decide_unpack _); vm_compute; exact I).
    assert (Hout : oid format ∉ passthru
             (visitAssignStmt ti [Ident 21]
                (visitFuncDecl ti printers 16 [[]; []]
                   (visitFuncDecl ti printers 8 [[9]; [10]]%positive start))))
      by (apply (bool_decide_unpack _); vm_compute; exact I).
    split; [exact Hin|]. split; [exact Hout|].
    exact (proj2 (registry_scope ti pp printers Pos End_ false
                    [decl_passthrough; call_forward; decl_nameless] _ eq_refl)
                 assign_format _ (oid format) eq_refl Hin Hout).
Defined.

Lemma nonconst_leaf_nonconstant_witness :
  nonconst_leaf ti v1_plus_c1 = true ∧ resolved ti v1_plus_c1 = true ∧
  ∃ s', constlit v1_plus_c1 empty = Ok (false, s') ∧ bad s' ≠ ∅.
Proof.
  split; [reflexivity|]. split; [reflexivity|].
  apply (nonconst_leaf_nonconstant ti pp v1_plus_c1 empty); reflexivity.
Defined.

Lemma unnamed_format_parameter_witness :
  concat [[]; []] !! Z.to_nat 0 = (None : option node) ∧
  (∀ st0, visitFuncDecl ti printers 16 [[]; []] st0 = st0) ∧
  ∃ st, run false [decl_nameless] = Ok st ∧
    ∃ st', visit false (CallNode fmt_Sprintf [Ident 1]) st = Ok st' ∧
      reported st'
      = (reported st ++ [variable_diagnostic pp Pos End_ fmt_Sprintf 1 v1])%list ∧
      passthru st' = passthru st.
Proof.
  split; [reflexivity|]. split.
  - apply (proj1 (unnamed_format_parameter ti pp printers Pos End_ false []
                    16%positive [[]; []] nameless 0 [] fmt_Sprintf [Ident 1]
                    0 1%positive v1 start eq_refl eq_refl ltac:(lia) eq_refl)).
  - eexists. split; [reflexivity|].
    apply (proj2 (unnamed_format_parameter ti pp printers Pos End_ false []
                    16%positive [[]; []] nameless 0 [] fmt_Sprintf [Ident 1]
                    0 1%positive v1 _ eq_refl eq_refl ltac:(lia) eq_refl)).
    + reflexivity.
    + constructor.
    + reflexivity.
    + lia.
    + reflexivity.
    + reflexivity.
    + reflexivity.
    + reflexivity.
Defined.

End OnTestdata.

(** * The test package with its import

    [pkg.C] is a constant of the imported package [a/pkg]; the last
    identifier is a variable spelled with sixteen Greek letters alpha, two
    bytes each. *)

Module TestdataPkg.

Definition pkg := Testdata.obj KPkgName 17 0.
Definition pkg_C := Testdata.obj KConst 18 0.
Definition wide := Testdata.obj KVar 19 119.

Definition ti : Info :=
  {| ObjectOf := λ n,
       match n with
       | 36 => Some pkg | 37 => Some pkg_C | 38 => Some wide
       | _ => ObjectOf Testdata.ti n
       end%positive;
     Selections := Selections Testdata.ti |}.

Definition alpha : string :=
  String (Ascii.ascii_of_nat 206)
    (String (Ascii.ascii_of_nat 177) EmptyString).

Fixpoint repeat_string (n : nat) (s : string) : string :=
  match n with
  | O => EmptyString
  | S n' => s ++ repeat_string n' s
  end.

Definition wide_name : string := repeat_string 16 alpha.

Definition pp (n : node) : string :=
  match n with
  | 36 => "pkg" | 37 => "C" | 38 => wide_name
  | 70 => "pkg.C" | 71 => "c1 + string(`abc`)"
  | 72 => "(c1 + string(`abc`))" | 73 => "2"
  | 74 => "(c1 + string(`abc`))[:2]"
  | 75 => "(c1 + string(`abc`))[:2] + pkg.C"
  | 76 => (wide_name ++ " + c1")%string
  | _ => Testdata.pp n
  end%positive.

Definition Pos (n : node) : Z := Z.pos n.
Definition End_ (n : node) : Z := Z.pos n + Z.of_nat (String.length (pp n)).

(** the wide variable followed by [+ c1] *)
Definition wide_plus_c1 := BinaryExpr 76 (Ident 38) (Ident 4).

End TestdataPkg.

Section OnTestdataPkg.

Local Open Scope Z_scope.

Import TestdataPkg.


(** [fmt.Sprintf] of the wide variable followed by [+ c1]: the culprit
    has 16 characters in 32 bytes, and the message does not name it. *)
Lemma wide_culprit_not_named :
  ¬ short_culprit_named_claim ti pp Testdata.printers Pos End_.
Proof.
  intros H.
  assert (Hm := H false Testdata.fmt_Sprintf [wide_plus_c1] start 0
                  wide_plus_c1 _ 38%positive _ _
                  eq_refl ltac:(lia) eq_refl eq_refl
                  ltac:(intros id Hid; discriminate Hid) eq_refl
                  eq_refl ltac:(vm_compute; lia) eq_refl eq_refl).
  vm_compute in Hm. discriminate Hm.
Qed.

Example wide_culprit_message :
  Testdata.messages
    (run ti pp Testdata.printers Pos End_ false
       [CallNode Testdata.fmt_Sprintf [wide_plus_c1]])
  = ["non-constant expression used for fmt.Sprintf format parameter"] ∧
  characters (pp 38) = 16%nat ∧ String.length (pp 38) = 32%nat.
Proof. vm_compute. done. Qed.

Lemma general_diagnostic_witness :
  (∃ e, constlit ti pp Testdata.paren_v1_plus_c1
          {| bad := ∅; out := printed start |} = Ok (false, e) ∧
     ∃ st' d, visitCallExpr ti pp Testdata.printers Pos End_ false
                Testdata.fmt_Sprintf [Testdata.paren_v1_plus_c1] start
              = Ok st' ∧
       reported st' = (reported start ++ [d])%list ∧
       dMessage d
       = "non-constant expression used for fmt.Sprintf format parameter" ∧
       length (dRelated d) = 2%nat) ∧
  (∃ e, constlit ti pp Testdata.lookup_false
          {| bad := ∅; out := printed start |} = Ok (false, e) ∧
     ∃ st' d, visitCallExpr ti pp Testdata.printers Pos End_ false
                Testdata.fmt_Sprintf [Testdata.lookup_false] start
              = Ok st' ∧
       reported st' = (reported start ++ [d])%list ∧
       dMessage d
       = "variable `lookup[false]` used for fmt.Sprintf format parameter" ∧
       {| rPos := Pos 46; rEnd := End_ 46;
          rMessage := "Non-constant: lookup[false]" |} ∈ dRelated d) ∧
  (∃ e, constlit ti pp wide_plus_c1
          {| bad := ∅; out := printed start |} = Ok (false, e) ∧
     ∃ st' d, visitCallExpr ti pp Testdata.printers Pos End_ false
                Testdata.fmt_Sprintf [wide_plus_c1] start
              = Ok st' ∧
       reported st' = (reported start ++ [d])%list ∧
       dMessage d
       = "non-constant expression used for fmt.Sprintf format parameter").
Proof.
  split; [|split].
  - eexists. split; [vm_compute; reflexivity|].
    destruct (general_diagnostic ti pp Testdata.printers Pos End_ false
                Testdata.fmt_Sprintf [Testdata.paren_v1_plus_c1] start 0
                Testdata.paren_v1_plus_c1 _
                eq_refl ltac:(lia) eq_refl eq_refl
                ltac:(intros id Hid; discriminate Hid) eq_refl)
      as (st' & d & Hv & Hr & _ & _ & _ & Hmany & _ & Hlen).
    exists st', d. split; [exact Hv|]. split; [exact Hr|]. split.
    + apply Hmany. vm_compute. lia.
    + rewrite Hlen. vm_compute. reflexivity.
  - eexists. split; [vm_compute; reflexivity|].
    destruct (general_diagnostic ti pp Testdata.printers Pos End_ false
                Testdata.fmt_Sprintf [Testdata.lookup_false] start 0
                Testdata.lookup_false _
                eq_refl ltac:(lia) eq_refl eq_refl
                ltac:(intros id Hid; discriminate Hid) eq_refl)
      as (st' & d & Hv & Hr & _ & Hone & _ & _ & Hnotes & _).
    exists st', d. split; [exact Hv|]. split; [exact Hr|]. split.
    + apply (Hone 46%positive); [vm_compute; reflexivity | vm_compute; lia].
    + apply (Hnotes 46%positive).
      apply (bool_decide_unpack _). vm_compute. exact I.
  - eexists. split; [vm_compute; reflexivity|].
    destruct (general_diagnostic ti pp Testdata.printers Pos End_ false
                Testdata.fmt_Sprintf [wide_plus_c1] start 0
                wide_plus_c1 _
                eq_refl ltac:(lia) eq_refl eq_refl
                ltac:(intros id Hid; discriminate Hid) eq_refl)
      as (st' & d & Hv & Hr & _ & _ & Hlong & _).
    exists st', d. split; [exact Hv|]. split; [exact Hr|].
    apply (Hlong 38%positive); [vm_compute; reflexivity | vm_compute; lia].
Defined.

End OnTestdataPkg.

(** * Further properties of the provenance engine *)

(** The nodes of an expression and of all its sub-expressions. *)
Fixpoint nodes (x : Expr) : gset node :=
  {[nodeOf x]} ∪
  match x with
  | BinaryExpr _ X Y | KeyValueExpr _ X Y | IndexExpr _ X Y =>
      nodes X ∪ nodes Y
  | ParenExpr _ X | StarExpr _ X | TypeAssertExpr _ X | UnaryExpr _ X
  | SelectorExpr _ X _ => nodes X
  | SliceExpr _ X Low High Max =>
      nodes X ∪ from_option nodes ∅ Low ∪ from_option nodes ∅ High
      ∪ from_option nodes ∅ Max
  | CallExpr _ Fun Args => nodes Fun ∪ ⋃ (nodes <$> Args)
  | BasicLit _ | Ident _ | OtherExpr _ _ => ∅
  end.

Lemma nodes_self x : nodeOf x ∈ nodes x.
Proof. destruct x; simpl; set_solver. Qed.

Lemma nodes_children x :
  nodes x = {[nodeOf x]} ∪ ⋃ (nodes <$> children x).
Proof.
  destruct x; simpl; try set_solver.
  destruct Low, High, Max; simpl; set_solver.
Qed.

Lemma nodes_operands x : ⋃ (nodes <$> operands x) ⊆ nodes x.
Proof.
  unfold operands. destruct (composite x); [|set_solver].
  rewrite (nodes_children x). set_solver.
Qed.

Lemma combine_loop_frame (f : Expr → M bool) (N : Expr → gset node) xs :
  Forall (λ x, ∀ s b s', f x s = Ok (b, s') → bad s' ⊆ bad s ∪ N x) xs →
  ∀ allgood allbad s r s',
    combine_loop f xs allgood allbad s = Ok (r, s') →
    bad s' ⊆ bad s ∪ ⋃ (N <$> xs).
Proof.
  induction 1 as [|x xs Hx _ IH]; intros allgood allbad s r s'; simpl.
  - intros [= _ <-]. set_solver.
  - intros (c & s1 & Hc & Hk)%bind_Ok. apply Hx in Hc.
    destruct c; apply IH in Hk; set_solver.
Qed.

(** State after the loop of [combine] does not depend on the flags. *)
Lemma combine_loop_flags (f : Expr → M bool) xs :
  ∀ allgood allbad s r s' allgood' allbad',
    combine_loop f xs allgood allbad s = Ok (r, s') →
    ∃ r', combine_loop f xs allgood' allbad' s = Ok (r', s').
Proof.
  induction xs as [|x xs IH]; intros allgood allbad s r s' g a; simpl.
  - intros [= _ <-]. by eexists.
  - intros (c & s1 & Hc & Hk)%bind_Ok. unfold bind. rewrite Hc.
    destruct c; eapply IH, Hk.
Qed.

(** Operands judged constant can be left out of the loop. *)
Lemma combine_loop_filter (f : Expr → M bool) (v : Expr → bool) xs :
  Forall (λ x, v x = true → ∀ s, f x s = Ok (true, s)) xs →
  ∀ allgood allbad s r s',
    combine_loop f xs allgood allbad s = Ok (r, s') →
    ∃ r', combine_loop f (filter (λ x, v x = false) xs) allgood allbad s
          = Ok (r', s').
Proof.
  induction 1 as [|x xs Hx _ IH]; intros allgood allbad s r s'; simpl.
  - intros [= _ <-]. by eexists.
  - intros (c & s1 & Hc & Hk)%bind_Ok.
    rewrite filter_cons. destruct (decide (v x = false)) as [Hv|Hv].
    + simpl. unfold bind. rewrite Hc. destruct c; eapply IH, Hk.
    + apply not_false_is_true in Hv. rewrite (Hx Hv) in Hc.
      injection Hc as <- <-.
      destruct (IH _ _ _ _ _ Hk) as (r' & Hr').
      eapply combine_loop_flags, Hr'.
Qed.

Lemma combine_loop_out (f : Expr → M bool) xs :
  Forall (λ x, ∀ s b s' o, f x s = Ok (b, s') →
     ∃ o', f x {| bad := bad s; out := o |}
           = Ok (b, {| bad := bad s'; out := o' |})) xs →
  ∀ allgood allbad s r s' o,
    combine_loop f xs allgood allbad s = Ok (r, s') →
    ∃ o', combine_loop f xs allgood allbad {| bad := bad s; out := o |}
          = Ok (r, {| bad := bad s'; out := o' |}).
Proof.
  induction 1 as [|x xs Hx _ IH]; intros allgood allbad s r s' o; simpl.
  - intros [= <- <-]. by eexists.
  - intros (c & s1 & Hc & Hk)%bind_Ok.
    destruct (Hx _ _ _ o Hc) as (o1 & Ho1). unfold bind. rewrite Ho1.
    destruct c; apply (IH _ _ _ _ _ o1) in Hk; exact Hk.
Qed.

Section EngineMore.

Variable ti : Info.
Variable pp : node → string.

Abbreviation constlit := (constlit ti pp).

Lemma judged_true_keeps x : judged ti pp true x → ∀ s, constlit x s = Ok (true, s).
Proof.
  intros H s. destruct (H s) as (s' & Hs).
  by rewrite (constlit_true ti pp _ _ _ Hs) in Hs.
Qed.

Lemma constlit_frame x : ∀ s b s',
  constlit x s = Ok (b, s') → bad s' ⊆ bad s ∪ nodes x.
Proof.
  induction x as [x IH] using Expr_children_ind. intros s b s'.
  destruct (composite x) eqn:Hc.
  - rewrite (constlit_composite ti pp x Hc).
    pose proof (nodes_operands x) as Hops. pose proof (nodes_self x) as Hself.
    unfold operands in *. rewrite Hc in *. unfold combine.
    intros ([allgood allbad] & s1 & Hloop & Hk)%bind_Ok.
    apply (combine_loop_frame _ nodes _ IH) in Hloop.
    apply bind_Ok in Hk as ([] & s2 & Hm & [= _ <-]).
    destruct allbad.
    + unfold bind in Hm. rewrite unmark_all_spec in Hm.
      injection Hm as <-. simpl. set_solver.
    + injection Hm as <-. set_solver.
  - pose proof (nodes_self x) as Hself.
    destruct x as [| | | | | | |n X Sel|n|n|n Fun Args|n X I|n k];
      try discriminate; simpl in Hself |- *.
    + unfold panic. destruct (selobj ti n Sel) as [o|]; [|done].
      destruct (constobj o); intros [= _ <-]; simpl; set_solver.
    + intros [= _ <-]. set_solver.
    + destruct (constobj _); intros [= _ <-]; simpl; set_solver.
    + destruct Args as [|a [|]]; try (intros [= _ <-]; simpl; set_solver).
      intros (t & s1 & Ht & Hk)%bind_Ok.
      assert (bad s1 = bad s) as Hs1.
      { destruct Fun; simpl in Ht; by inversion Ht. }
      destruct t; [|injection Hk as _ <-; simpl; set_solver].
      apply bind_Ok in Hk as (c & s2 & Hc' & Hk).
      apply Forall_cons in IH as [_ [IHa _]%Forall_cons].
      apply IHa in Hc'.
      destruct c; injection Hk as _ <-; simpl; set_solver.
    + intros [= _ <-]. simpl. set_solver.
    + intros [= _ <-]. simpl. set_solver.
Qed.

Lemma typeexpr_out f s b s' o :
  typeexpr ti pp f s = Ok (b, s') →
  ∃ o', typeexpr ti pp f {| bad := bad s; out := o |}
        = Ok (b, {| bad := bad s'; out := o' |}).
Proof. destruct f; simpl; intros [= <- <-]; by eexists. Qed.

(** What [pt] has printed plays no part in the verdict or the culprits. *)
Lemma constlit_out x : ∀ s b s' o,
  constlit x s = Ok (b, s') →
  ∃ o', constlit x {| bad := bad s; out := o |}
        = Ok (b, {| bad := bad s'; out := o' |}).
Proof.
  induction x as [x IH] using Expr_children_ind. intros s b s' o.
  destruct (composite x) eqn:Hc.
  - rewrite (constlit_composite ti pp x Hc).
    unfold operands in *. rewrite Hc in *. unfold combine.
    intros ([allgood allbad] & s1 & Hloop & Hk)%bind_Ok.
    destruct (combine_loop_out _ _ IH _ _ _ _ _ o Hloop) as (o1 & Ho1).
    unfold bind at 1. rewrite Ho1.
    apply bind_Ok in Hk as ([] & s2 & Hm & [= <- <-]).
    destruct allbad.
    + unfold bind in Hm |- *. rewrite unmark_all_spec in Hm |- *.
      injection Hm as <-. simpl. by eexists.
    + injection Hm as <-. simpl. by eexists.
  - destruct x as [| | | | | | |n X Sel|n|n|n Fun Args|n X I|n k];
      try discriminate; simpl.
    + unfold panic. destruct (selobj ti n Sel) as [ob|]; [|done].
      destruct (constobj ob); intros [= <- <-]; by eexists.
    + intros [= <- <-]. by eexists.
    + destruct (constobj _); intros [= <- <-]; by eexists.
    + destruct Args as [|a [|]]; try (intros [= <- <-]; by eexists).
      intros (t & s1 & Ht & Hk)%bind_Ok.
      destruct (typeexpr_out _ _ _ _ o Ht) as (o1 & Ho1).
      unfold bind at 1. rewrite Ho1.
      destruct t; [|injection Hk as <- <-; by eexists].
      apply bind_Ok in Hk as (c & s2 & Hc' & Hk).
      apply Forall_cons in IH as [_ [IHa _]%Forall_cons].
      destruct (IHa _ _ _ o1 Hc') as (o2 & Ho2).
      unfold bind. rewrite Ho2.
      destruct c; injection Hk as <- <-; by eexists.
    + intros [= <- <-]. by eexists.
    + intros [= <- <-]. by eexists.
Qed.

End EngineMore.

Section EngineProperties.

Variable ti : Info.
Variable pp : node → string.

Abbreviation constlit := (constlit ti pp).

(** X1: whenever [constlit] answers constant, for any expression, it has
    recorded no culprit, deleted none and printed nothing. *)
Theorem constant_verdict_keeps_state x s s' :
  constlit x s = Ok (true, s') → s' = s.
Proof. apply constlit_true. Qed.

(** X2: whenever [constlit], started on an empty map, answers
    non-constant, the culprits are not empty and each of them is the
    expression or one of its sub-expressions. *)
Theorem nonconstant_verdict_culprits x o s' :
  constlit x {| bad := ∅; out := o |} = Ok (false, s') →
  bad s' ≠ ∅ ∧ bad s' ⊆ nodes x.
Proof.
  intros H. split; [by eapply constlit_false|].
  apply constlit_frame in H. simpl in H. set_solver.
Qed.

(** X3: the verdict does not depend on the culprits collected or the
    lines printed before: two evaluations of one expression that return
    agree. *)
Theorem verdict_state_independent x s1 s2 b1 b2 s1' s2' :
  constlit x s1 = Ok (b1, s1') → constlit x s2 = Ok (b2, s2') → b1 = b2.
Proof.
  intros H1%constlit_verdict H2%constlit_verdict. congruence.
Qed.

(** X4: a composite form all of whose operands are judged constant is
    judged constant, and the state is left as it was. *)
Theorem all_constant_composite x s :
  composite x = true →
  Forall (judged ti pp true) (operands x) →
  constlit x s = Ok (true, s).
Proof.
  intros Hc Hops. rewrite (constlit_composite ti pp x Hc).
  unfold combine, bind.
  rewrite (combine_loop_all_true constlit (operands x)).
  - done.
  - eapply Forall_impl; [exact Hops|]. intros y. apply judged_true_keeps.
  - by apply operands_nonempty.
Qed.

(** X5: a composite form with both a constant and a non-constant operand
    is judged non-constant without being recorded itself: the state it
    leaves is the one left by evaluating its non-constant operands alone,
    in order. *)
Theorem mixed_operands x s :
  composite x = true →
  Forall (λ o, judged ti pp true o ∨ judged ti pp false o) (operands x) →
  Exists (judged ti pp true) (operands x) →
  Exists (judged ti pp false) (operands x) →
  ∃ s', constlit x s = Ok (false, s') ∧
    (∃ r, combine_loop constlit
            (filter (λ o, verdict ti o = false) (operands x)) true true s
          = Ok (r, s')) ∧
    (nodeOf x ∉ bad s → nodeOf x ∉ ⋃ (nodes <$> operands x) →
     nodeOf x ∉ bad s').
Proof.
  intros Hc Hops Htrue Hfalse.
  assert (Htot : Forall (λ y, ∀ s, ∃ b s', constlit y s = Ok (b, s'))
                        (operands x)).
  { eapply Forall_impl; [exact Hops|]. intros y [Hy|Hy] s0;
      destruct (Hy s0) as (s' & ->); by eexists _, _. }
  destruct (combine_loop_total _ _ Htot true true s) as ([g a] & s1 & Hloop).
  assert (Hflags : g = false ∧ a = false).
  { eapply combine_loop_verdicts in Hloop as [-> ->];
      [|eapply Forall_impl; [exact Htot|]; intros y _ s0 b s';
        apply constlit_verdict].
    simpl. split.
    - apply not_true_is_false. intros Hall. rewrite forallb_forall in Hall.
      apply Exists_exists in Hfalse as (y & Hy & Hj).
      apply judged_verdict in Hj. apply list_elem_of_In, Hall in Hy.
      congruence.
    - apply not_true_is_false. intros Hall. rewrite forallb_forall in Hall.
      apply Exists_exists in Htrue as (y & Hy & Hj).
      apply judged_verdict in Hj. apply list_elem_of_In, Hall in Hy.
      rewrite Hj in Hy. discriminate. }
  destruct Hflags as [-> ->].
  exists s1. split; [|split].
  - rewrite (constlit_composite ti pp x Hc). unfold combine, bind.
    by rewrite Hloop.
  - eapply combine_loop_filter; [|exact Hloop].
    eapply Forall_impl; [exact Hops|]. intros y Hy Hv.
    apply judged_true_keeps. destruct Hy as [Hy|Hy]; [done|].
    apply judged_verdict in Hy. congruence.
  - intros Hs Hn Hin.
    eapply (combine_loop_frame constlit nodes) in Hloop.
    + set_solver.
    + apply Forall_forall. intros y _ s0 b s'. apply constlit_frame.
Qed.

Lemma callee_name_istype Fun o :
  callee_name ti Fun = Some o →
  istype ti Fun = match okind o with KTypeName => true | _ => false end.
Proof. destruct Fun; try discriminate; simpl; by intros ->. Qed.

Lemma callee_name_none Fun : callee_name ti Fun = None → istype ti Fun = false.
Proof. destruct Fun; try done; simpl; by intros ->. Qed.

(** X6: a call that has zero or several arguments, or whose callee (an
    identifier or a qualified name) does not name a type, is judged
    non-constant, and the call itself is the only culprit added: its
    arguments are not evaluated, so it returns whatever they are. *)
Theorem ordinary_call_blamed n Fun Args s :
  length Args ≠ 1%nat ∨
  (∀ o, callee_name ti Fun = Some o → okind o ≠ KTypeName) →
  ∃ s', constlit (CallExpr n Fun Args) s = Ok (false, s') ∧
        bad s' = {[n]} ∪ bad s.
Proof.
  intros H. simpl.
  destruct Args as [|a [|]]; try by eexists.
  destruct H as [H|H]; [done|].
  assert (Ht : istype ti Fun = false).
  { destruct (callee_name ti Fun) as [o|] eqn:Ho.
    - rewrite (callee_name_istype _ _ Ho). specialize (H o eq_refl).
      by destruct (okind o).
    - by apply callee_name_none. }
  unfold bind. destruct (typeexpr ti pp Fun s) as [[t s1]|] eqn:Hte.
  - pose proof (typeexpr_istype _ _ _ _ _ _ Hte) as ->. rewrite Ht.
    eexists. split; [done|]. simpl.
    destruct Fun; simpl in Hte; by inversion Hte.
  - destruct Fun; discriminate.
Qed.



End EngineProperties.

(** * Further properties of the traversal driver *)

Definition isCall (n : Node) : bool :=
  match n with CallNode _ _ => true | _ => false end.

Definition with_registry (P : gset positive) (st : Pass) : Pass :=
  {| passthru := P; reported := reported st; printed := printed st |}.

Section DriverProperties.

Local Open Scope Z_scope.

Variable ti : Info.
Variable pp : node → string.
Variable printers : Object → PrintfKind.
Variable Pos End_ : node → Z.

Abbreviation constlit := (constlit ti pp).
Abbreviation visit := (visit ti pp printers Pos End_).
Abbreviation visitAll := (visitAll ti pp printers Pos End_).
Abbreviation run := (run ti pp printers Pos End_).
Abbreviation visitCallExpr := (visitCallExpr ti pp printers Pos End_).
Abbreviation checkFormat := (checkFormat ti pp Pos End_).
Abbreviation checkargOf := (checkargOf ti printers).

Lemma nthName_names_before names nth i :
  nth < i →
  nthName_names names nth i = inr (i + Z.of_nat (length names)).
Proof.
  revert i. induction names as [|n names IH]; intros i Hi; simpl.
  - f_equal. lia.
  - destruct (Z.eqb_spec i nth); [lia|]. rewrite IH by lia. f_equal. lia.
Qed.

Lemma nthName_from_before flds nth i :
  nth < i → nthName_from flds nth i = None.
Proof.
  revert i. induction flds as [|fld flds IH]; intros i Hi; simpl; [done|].
  rewrite nthName_names_before by done. apply IH. lia.
Qed.

(** X8: [nthName] numbers the names of all fields in order from 0: it
    returns the name at position [nth] of their concatenation, and nil
    when [nth] is negative or there are not that many names (fields without
    names count for nothing). *)
Theorem nthName_counts_names flds nth :
  nthName flds nth
  = if 0 <=? nth then concat flds !! Z.to_nat nth else None.
Proof.
  destruct (Z.leb_spec 0 nth).
  - by apply nthName_spec.
  - by apply nthName_from_before.
Qed.

(** The object a callee that is a name resolves to. *)
Definition callee_resolves (Fun : Expr) (o : Object) : Prop :=
  match Fun with
  | Ident id => ObjectOf ti id = Some o
  | SelectorExpr n _ Sel => selobj ti n Sel = Ok (Some o)
  | _ => False
  end.

(** Not a function of kind Printf or Errorf with two parameters or more. *)
Definition unchecked (o : Object) : Prop :=
  match okind o with
  | KFunc params_len =>
      params_len < 2 ∨ printers o = KindNone ∨ printers o = KindPrint
  | _ => True
  end.

(** X9: only functions of kind Printf or Errorf with at least two
    parameters are checked: a call whose callee names anything else (a
    Print-kind function, an unclassified function, a variable or a type)
    leaves the pass as it was, whatever its arguments. *)
Theorem only_printf_errorf_checked b Fun Args st o :
  callee_resolves Fun o → unchecked o →
  visitCallExpr b Fun Args st = Ok st.
Proof.
  intros Hres Hun. unfold visitCallExpr.
  assert (checkargOf Fun = Ok (Some (fmtarg printers (Some o)))) as ->.
  { destruct Fun; try done; simpl in *; by rewrite Hres. }
  assert (fmtarg printers (Some o) < 0) as Hneg.
  { unfold fmtarg, unchecked in *. destruct (okind o); try lia.
    destruct Hun as [?|[->| ->]]; [|lia..].
    destruct (printers o); lia. }
  by destruct (Z.ltb_spec (fmtarg printers (Some o)) 0); [|lia].
Qed.

(** X10: a call whose callee is not an identifier or a member access
    (a parenthesised name, a call result, an indexed function, a function
    literal) is never reported, even when it denotes a Printf-kind
    function, and it leaves the registry alone. *)
Theorem unnamed_callee_never_reported b Fun Args st :
  (∀ id, Fun ≠ Ident id) → (∀ n X Sel, Fun ≠ SelectorExpr n X Sel) →
  ∃ st', visitCallExpr b Fun Args st = Ok st' ∧
         reported st' = reported st ∧ passthru st' = passthru st.
Proof.
  intros Hid Hsel. unfold visitCallExpr.
  destruct Fun; try (by eexists); try (by destruct (Hid n));
    try (by destruct (Hsel n Fun Sel)).
  destruct k; by eexists.
Qed.

Lemma checkFormat_shape Fun arg st st' :
  checkFormat Fun arg st = Ok st' →
  reported st' = reported st ∨
  ∃ d subject,
    reported st' = (reported st ++ [d])%list ∧
    dPos d = Pos (nodeOf arg) ∧ dEnd d = End_ (nodeOf arg) ∧
    dMessage d = subject ++ " used for " ++ pp (nodeOf Fun)
                 ++ " format parameter" ∧
    dRelated d ≠ [].
Proof.
  unfold checkFormat.
  destruct arg;
    try (destruct (constlit _ _) as [[[] e]|] eqn:He;
         [ intros [= <-]; by left
         | intros [= <-]; right; eexists _, _;
           repeat split; try done; simpl;
           apply constlit_false in He; intros Hnil;
           apply fmap_nil_inv in Hnil; apply elements_empty_inv in Hnil;
           apply He; by apply leibniz_equiv
         | done ]).
  destruct (ObjectOf ti n) as [obj|]; [|done].
  destruct (okind obj); try (intros [= <-]; by left).
  case_decide; intros [= <-]; [by left|]. right.
  eexists _, ("variable `" ++ pp n ++ "`").
  repeat split; try done. simpl. by rewrite !append_assoc.
Qed.

Lemma visitCallExpr_shape b Fun Args st st' :
  visitCallExpr b Fun Args st = Ok st' →
  reported st' = reported st ∨
  ∃ i arg d subject,
    checkargOf Fun = Ok (Some i) ∧ 0 ≤ i ∧
    Args !! Z.to_nat i = Some arg ∧
    reported st' = (reported st ++ [d])%list ∧
    dPos d = Pos (nodeOf arg) ∧ dEnd d = End_ (nodeOf arg) ∧
    dMessage d = subject ++ " used for " ++ pp (nodeOf Fun)
                 ++ " format parameter" ∧
    dRelated d ≠ [].
Proof.
  unfold visitCallExpr.
  destruct (checkargOf Fun) as [[i|]|]; [| intros [= <-]; by left | done].
  destruct (Z.ltb_spec i 0) as [|Hi]; [intros [= <-]; by left|].
  destruct (b && _); [intros [= <-]; by left|].
  destruct (Args !! Z.to_nat i) as [arg|] eqn:Harg; [|done].
  intros [Hsame|(d & subject & Hd)]%checkFormat_shape; [by left|].
  right. by exists i, arg, d, subject.
Qed.

(** X11: a visited call adds at most one diagnostic.  When it adds one,
    the callee was classified at a format index within the argument list,
    the diagnostic spans the argument at that index, its message ends in
    [used for <callee> format parameter], and it carries at least one
    related note. *)
Theorem reported_diagnostic_shape b Fun Args st st' :
  visitCallExpr b Fun Args st = Ok st' →
  reported st' = reported st ∨
  ∃ i arg d subject,
    checkargOf Fun = Ok (Some i) ∧ 0 ≤ i ∧
    Args !! Z.to_nat i = Some arg ∧
    reported st' = (reported st ++ [d])%list ∧
    dPos d = Pos (nodeOf arg) ∧ dEnd d = End_ (nodeOf arg) ∧
    dMessage d = subject ++ " used for " ++ pp (nodeOf Fun)
                 ++ " format parameter" ∧
    dRelated d ≠ [].
Proof. apply visitCallExpr_shape. Qed.

Lemma visit_reported b n st st' :
  visit b n st = Ok st' →
  reported st' = reported st ∨
  (isCall n = true ∧ ∃ d, reported st' = (reported st ++ [d])%list).
Proof.
  destruct n as [Name Params|Lhs|Fun Args]; simpl.
  - intros [= <-]. left. rewrite visitFuncDecl_spec.
    by destruct (formatParam _ _ _ _).
  - intros [= <-]. left. by rewrite visitAssignStmt_spec.
  - intros [H|(i & arg & d & subject & _ & _ & _ & H & _)]%visitCallExpr_shape;
      [by left|]. right. eauto.
Qed.

(** X12: function declarations and assignments report nothing, and
    diagnostics are only ever appended: after a traversal the earlier
    diagnostics are still there, in order, followed by at most one
    diagnostic per call visited. *)
Theorem one_diagnostic_per_call b ns : ∀ st st',
  visitAll b ns st = Ok st' →
  ∃ ds, reported st' = (reported st ++ ds)%list ∧
        (length ds ≤ length (filter (λ n, isCall n = true) ns))%nat.
Proof.
  induction ns as [|n ns IH]; intros st st'; simpl.
  - intros [= <-]. exists []. by rewrite app_nil_r.
  - destruct (visit b n st) as [st1|] eqn:Hv; [|done]. intros Hrest.
    destruct (IH _ _ Hrest) as (ds & Hds & Hlen).
    rewrite filter_cons.
    destruct (visit_reported _ _ _ _ Hv) as [H1|(Hcall & d & H1)].
    + exists ds. rewrite Hds, H1. split; [done|].
      destruct (decide _); simpl; lia.
    + exists (d :: ds). rewrite Hds, H1, <-app_assoc. split; [done|].
      destruct (decide _); [simpl; lia | done].
Qed.

(** X13: a bare identifier passed as the format is reported only when
    it is bound to a variable that is not in the registry; the diagnostic
    is then the one naming the identifier, with a note at the variable's
    declaration. *)
Theorem bare_identifier_reported_only_if_variable Fun a st st' :
  checkFormat Fun (Ident a) st = Ok st' →
  reported st' ≠ reported st →
  ∃ o, ObjectOf ti a = Some o ∧ okind o = KVar ∧ (oid o ∉ passthru st) ∧
       st' = report (variable_diagnostic pp Pos End_ Fun a o) st.
Proof.
  unfold checkFormat. destruct (ObjectOf ti a) as [o|]; [|done].
  destruct (okind o) eqn:Hk; try (by intros [= <-] []).
  case_decide; intros [= <-] Hne; [done|]. by exists o.
Qed.

(** X14: an assignment removes from the registry exactly the objects of
    its targets that are bare identifiers, adds nothing, and reports and
    prints nothing; a target of any other form (parenthesised, indexed,
    dereferenced, a field) invalidates nothing. *)
Theorem assignment_effect Lhs st :
  reported (visitAssignStmt ti Lhs st) = reported st ∧
  printed (visitAssignStmt ti Lhs st) = printed st ∧
  ∀ o, o ∈ passthru (visitAssignStmt ti Lhs st) ↔
       o ∈ passthru st ∧
       ∀ id obj, Ident id ∈ Lhs → ObjectOf ti id = Some obj → oid obj ≠ o.
Proof.
  rewrite visitAssignStmt_spec. simpl. split; [done|]. split; [done|].
  intros o. rewrite elem_of_difference, elem_of_union_list.
  split; intros [Hin Hno]; (split; [done|]).
  - intros id obj Hid Hobj <-. apply Hno.
    exists (target ti (Ident id)). split.
    + apply list_elem_of_fmap. by exists (Ident id).
    + simpl. rewrite Hobj. set_solver.
  - intros (X & HX & Ho). apply list_elem_of_fmap in HX as (lh & -> & Hlh).
    destruct lh; simpl in Ho; try set_solver.
    destruct (ObjectOf ti n) as [obj|] eqn:Hobj; [|set_solver].
    apply elem_of_singleton in Ho. by apply (Hno n obj).
Qed.

(** X15: the registry exempts only a bare identifier: for a format
    argument of any other form, parenthesised parameter included, the
    outcome of the check does not depend on the registry. *)
Theorem registry_irrelevant_for_expressions Fun arg st P :
  (∀ id, arg ≠ Ident id) →
  checkFormat Fun arg (with_registry P st)
  = match checkFormat Fun arg st with
    | Ok st' => Ok (with_registry P st')
    | Panic msg => Panic msg
    end.
Proof.
  intros Hid. unfold checkFormat, with_registry.
  destruct arg; try (by destruct (Hid n)); cbn [printed passthru reported];
    by destruct (constlit _ _) as [[[] e]|].
Qed.

Local Ltac fill_in :=
  split; [reflexivity|]; split; [reflexivity|]; split; reflexivity.

Lemma checkFormat_same_registry Fun arg sa sb sb' :
  passthru sa = passthru sb →
  checkFormat Fun arg sb = Ok sb' →
  ∃ sa' ds, checkFormat Fun arg sa = Ok sa' ∧
    passthru sa' = passthru sa ∧
    reported sa' = (reported sa ++ ds)%list ∧
    reported sb' = (reported sb ++ ds)%list.
Proof.
  intros Hreg. unfold checkFormat.
  destruct arg;
    try (destruct (constlit _ {| bad := ∅; out := printed sb |})
           as [[c e]|] eqn:He; [|done];
         destruct (constlit_out ti pp _ _ _ _ (printed sa) He) as (o' & Ho');
         cbn [bad] in Ho'; rewrite Ho';
         cbn [bad out]; destruct c; intros [= <-];
         [ eexists _, []; rewrite !app_nil_r; fill_in
         | eexists _, [_]; fill_in ]).
  destruct (ObjectOf ti n) as [obj|]; [|done].
  destruct (okind obj);
    try (intros [= <-]; eexists _, []; rewrite !app_nil_r; fill_in).
  destruct (decide (oid obj ∈ passthru sb)) as [Hin|Hout];
    destruct (decide (oid obj ∈ passthru sa)) as [Hin'|Hout'];
    try (by rewrite Hreg in Hin'); try (by rewrite Hreg in Hout');
    intros [= <-];
    [eexists _, []; rewrite !app_nil_r; fill_in | eexists _, [_]; fill_in].
Qed.

Lemma visit_suppress n sa sb sb' :
  passthru sa = passthru sb →
  reported sa `sublist_of` reported sb →
  visit false n sb = Ok sb' →
  ∃ sa', visit true n sa = Ok sa' ∧
    passthru sa' = passthru sb' ∧ reported sa' `sublist_of` reported sb'.
Proof.
  intros Hreg Hsub. destruct n as [Name Params|Lhs|Fun Args]; simpl.
  - intros [= <-]. eexists. split; [done|]. rewrite !visitFuncDecl_spec.
    destruct (formatParam _ _ _ _); simpl; by rewrite ?Hreg.
  - intros [= <-]. eexists. split; [done|]. rewrite !visitAssignStmt_spec.
    simpl. by rewrite Hreg.
  - unfold visitCallExpr.
    destruct (checkargOf Fun) as [[i|]|]; [| | done].
    + destruct (i <? 0); [intros [= <-]; by eexists|]. simpl.
      destruct (Z.of_nat (length Args) - 1 >? i).
      * destruct (Args !! Z.to_nat i) as [arg|]; [|done]. intros Hb.
        exists sa. split; [done|].
        pose proof (checkFormat_passthru _ _ _ _ _ _ _ _ Hb) as Hp.
        split; [congruence|].
        apply checkFormat_shape in Hb as [->|(d & ? & -> & _)]; [done|].
        by apply sublist_inserts_r.
      * destruct (Args !! Z.to_nat i) as [arg|]; [|done]. intros Hb.
        pose proof (checkFormat_passthru _ _ _ _ _ _ _ _ Hb) as Hp.
        destruct (checkFormat_same_registry _ _ _ _ _ Hreg Hb)
          as (sa' & ds & Ha & Hpa & Hra & Hrb).
        exists sa'. split; [done|]. split; [congruence|].
        rewrite Hra, Hrb. by apply sublist_app.
    + intros [= <-]. eexists. split; [done|]. done.
Qed.

(** X16: setting [SuppressNoArgs] only removes diagnostics: when the run
    without the option returns, so does the run with it, the registry
    ends the same, and the diagnostics reported with the option are a
    sub-sequence of those reported without it. *)
Theorem suppress_only_removes ns st :
  run false ns = Ok st →
  ∃ st', run true ns = Ok st' ∧
    passthru st' = passthru st ∧ reported st' `sublist_of` reported st.
Proof.
  unfold run.
  assert (Hgen : ∀ sa sb sb',
    passthru sa = passthru sb → reported sa `sublist_of` reported sb →
    visitAll false ns sb = Ok sb' →
    ∃ sa', visitAll true ns sa = Ok sa' ∧
      passthru sa' = passthru sb' ∧ reported sa' `sublist_of` reported sb').
  { induction ns as [|n ns IH]; intros sa sb sb' Hreg Hsub; simpl.
    - intros [= <-]. by exists sa.
    - destruct (visit false n sb) as [sb1|] eqn:Hv; [|done]. intros Hrest.
      destruct (visit_suppress _ _ _ _ Hreg Hsub Hv) as (sa1 & -> & Hr1 & Hs1).
      by apply (IH _ _ _ Hr1 Hs1). }
  by apply Hgen.
Qed.

End DriverProperties.

(** * Further properties of the messages *)

Section MessageProperties.

Variable ti : Info.
Variable pp : node → string.
Variable printers : Object → PrintfKind.
Variable Pos End_ : node → Z.

Abbreviation constlit := (constlit ti pp).
Abbreviation checkFormat := (checkFormat ti pp Pos End_).



(** X18: the related notes of a diagnostic for a format argument that is
    not a bare identifier all point at the argument or at one of its
    sub-expressions. *)
Theorem related_notes_inside Fun arg st st' d :
  (∀ id, arg ≠ Ident id) →
  checkFormat Fun arg st = Ok st' →
  reported st' = (reported st ++ [d])%list →
  ∀ r, r ∈ dRelated d →
    ∃ n, n ∈ nodes arg ∧ r = related_of pp Pos End_ n.
Proof.
  intros Hid. unfold checkFormat.
  destruct arg; try (by destruct (Hid n));
    (destruct (constlit _ _) as [[[] e]|] eqn:He; [| |done];
     intros [= <-]; simpl;
     [ intros Heq; apply (f_equal length) in Heq;
       rewrite length_app in Heq; simpl in Heq; lia
     | intros [= <-]%app_inv_head r (m & -> & Hm)%list_elem_of_fmap;
       exists m; split; [|done];
       apply elem_of_elements in Hm;
       apply constlit_frame in He; simpl in He; set_solver ]).
Qed.

End MessageProperties.

(** * The analyzer over SSA form

    The [run] of the earlier, [buildssa]-based analyzer of
    [varfmt/varfmt.go].  The SSA program, the file positions and
    [astutil.PathEnclosingInterval] are results of other packages and are
    taken as data. *)

Module Ssa.

(** [ssa.Value], as far as [run] tells its kinds apart; a parameter is
    identified by its address. *)
Inductive Value :=
  | VConst
  | VSlice (X : Value)
  | VParameter (p : positive)
  | VOther.

(** [ssa.CallCommon]: [StaticCallee] is [None] for a nil callee and
    otherwise holds the callee's [Object()], which may be nil. *)
Record CallCommon := {
  IsInvoke : bool;
  StaticCallee : option (option Object);
  Args : list Value;
  comPos : Z
}.

(** An instruction is a [ssa.CallInstruction], with its [Common()] and
    its own [Pos()], or something else. *)
Inductive Instruction :=
  | CallInstruction (Common : CallCommon) (callPos : Z)
  | OtherInstruction.

Record Function := {
  fnObject : option Object;
  fnParams : list positive;
  fnBlocks : list (list Instruction)
}.

(** A node of the path returned by [astutil.PathEnclosingInterval]. *)
Inductive PathNode :=
  | PathCallExpr (Args : list Expr)
  | PathOther.

(** [*ast.File] with the path enclosing a position. *)
Record File := {
  filePos : Z;
  fileEnd : Z;
  PathEnclosingInterval : Z → list PathNode
}.

(** [strings.HasPrefix] and [strings.TrimPrefix] *)
Fixpoint HasPrefix (s prefix : string) : bool :=
  match prefix, s with
  | EmptyString, _ => true
  | String c prefix', String d s' =>
      if Ascii.eqb c d then HasPrefix s' prefix' else false
  | String _ _, EmptyString => false
  end.

Fixpoint string_drop (n : nat) (s : string) : string :=
  match n, s with
  | O, _ => s
  | S n', String _ s' => string_drop n' s'
  | S _, EmptyString => EmptyString
  end.

Definition TrimPrefix (s prefix : string) : string :=
  if HasPrefix s prefix then string_drop (String.length prefix) s else s.

(** [pass.Reportf]: a diagnostic with a position and a message only. *)
Definition Reportf (pos : Z) (msg : string) : Diagnostic :=
  {| dPos := pos; dEnd := 0; dMessage := msg; dRelated := [] |}.

Section Run.

Local Open Scope Z_scope.

(** [pp] of a node that may be nil *)
Variable pp : option node → string.
Variable printers : Object → PrintfKind.
(** [tfun.FullName()], [tfun.Pkg() == pass.Pkg] and [pass.Pkg.Name()] *)
Variable FullName : Object → string.
Variable inPkg : Object → bool.
Variable PkgName : string.
Variable Files : list File.

Definition isFunc (o : option Object) : option Object :=
  match o with
  | Some f => match okind f with KFunc _ => Some f | _ => None end
  | None => None
  end.

(** The loop over one path: each call expression with enough arguments
    overwrites [n]; one with too few ends the loop. *)
Fixpoint walkPath (path : list PathNode) (idx : Z) (n : option node)
    : result (option node) :=
  match path with
  | [] => Ok n
  | PathCallExpr cArgs :: path' =>
      if Z.of_nat (length cArgs) <? idx then Ok n
      else
        match cArgs !! Z.to_nat idx with
        | Some a => walkPath path' idx (Some (nodeOf a))
        | None => Panic index_out_of_range
        end
  | PathOther :: path' => walkPath path' idx n
  end.

Fixpoint findArg (files : list File) (pos idx : Z) (n : option node)
    : result (option node) :=
  match files with
  | [] => Ok n
  | f :: files' =>
      if (filePos f <=? pos) && (fileEnd f >=? pos) then
        match walkPath (PathEnclosingInterval f pos) idx n with
        | Ok n' => findArg files' pos idx n'
        | Panic msg => Panic msg
        end
      else findArg files' pos idx n
  end.

(** The switch on the format value: [true] for the cases that
    [continue]. *)
Definition accepted (fmtParam : option positive) (fmtarg : Value) : bool :=
  match fmtarg with
  | VConst => true
  | VSlice VConst => true
  | VParameter p =>
      match fmtParam with
      | Some q => bool_decide (p = q)
      | None => false
      end
  | _ => false
  end.

Definition message (n : option node) (name : string) : string :=
  let msg := "non-constant expression" in
  let m := "variable `" ++ pp n ++ "`" in
  (if Z.of_nat (String.length m) <? 2 * Z.of_nat (String.length msg)
   then m else msg)
  ++ " used for " ++ name ++ " format parameter".

Definition calleeName (tfun : Object) : string :=
  if inPkg tfun then TrimPrefix (FullName tfun) (PkgName ++ ".")
  else FullName tfun.

Definition visitCall (fmtParam : option positive) (com : CallCommon)
    (callPos : Z) (reports : list Diagnostic) : result (list Diagnostic) :=
  if IsInvoke com then Ok (reports ++ [Reportf (comPos com) "invoke"])%list
  else
    match StaticCallee com with
    | None => Ok reports
    | Some callee =>
        match isFunc callee with
        | None => Ok reports
        | Some tfun =>
            match printers tfun with
            | KindNone => Ok reports
            | _ =>
                let len := Z.of_nat (length (Args com)) in
                if len <? 2 then Ok reports
                else
                  match Args com !! Z.to_nat (len - 2) with
                  | None => Panic index_out_of_range
                  | Some fmtarg =>
                      if accepted fmtParam fmtarg then Ok reports
                      else
                        match findArg Files callPos (len - 2) None with
                        | Panic msg => Panic msg
                        | Ok n =>
                            Ok (reports ++
                                [Reportf callPos
                                   (message n (calleeName tfun))])%list
                        end
                  end
            end
        end
    end.

Fixpoint visitInstrs (fmtParam : option positive) (instrs : list Instruction)
    (reports : list Diagnostic) : result (list Diagnostic) :=
  match instrs with
  | [] => Ok reports
  | CallInstruction com callPos :: instrs' =>
      match visitCall fmtParam com callPos reports with
      | Ok reports' => visitInstrs fmtParam instrs' reports'
      | Panic msg => Panic msg
      end
  | OtherInstruction :: instrs' => visitInstrs fmtParam instrs' reports
  end.

Fixpoint visitBlocks (fmtParam : option positive)
    (blocks : list (list Instruction)) (reports : list Diagnostic)
    : result (list Diagnostic) :=
  match blocks with
  | [] => Ok reports
  | blk :: blocks' =>
      match visitInstrs fmtParam blk reports with
      | Ok reports' => visitBlocks fmtParam blocks' reports'
      | Panic msg => Panic msg
      end
  end.

(** [fn.Params[len(fn.Params)-2]] of a printf-like function *)
Definition fmtParamOf (tfun : Object) (params : list positive)
    : option positive :=
  match printers tfun with
  | KindNone => None
  | _ =>
      if 2 <=? Z.of_nat (length params)
      then params !! Z.to_nat (Z.of_nat (length params) - 2)
      else None
  end.

Definition visitFunction (fn : Function) (reports : list Diagnostic)
    : result (list Diagnostic) :=
  match isFunc (fnObject fn) with
  | Some tfun =>
      visitBlocks (fmtParamOf tfun (fnParams fn)) (fnBlocks fn) reports
  | None => Ok reports
  end.

Fixpoint visitFunctions (fns : list Function) (reports : list Diagnostic)
    : result (list Diagnostic) :=
  match fns with
  | [] => Ok reports
  | fn :: fns' =>
      match visitFunction fn reports with
      | Ok reports' => visitFunctions fns' reports'
      | Panic msg => Panic msg
      end
  end.

(** [run] over [prog.SrcFuncs] *)
Definition run (SrcFuncs : list Function) : result (list Diagnostic) :=
  visitFunctions SrcFuncs [].

End Run.

(** ** Strings *)

Lemma length_append (a b : string) :
  String.length (a ++ b) = (String.length a + String.length b)%nat.
Proof.
  induction a as [|c a IH]; [reflexivity|].
  change (S (String.length (a ++ b))
          = S (String.length a + String.length b)).
  by rewrite IH.
Qed.

Lemma HasPrefix_append (prefix s : string) : HasPrefix (prefix ++ s) prefix = true.
Proof.
  induction prefix as [|c prefix IH]; [by destruct s|].
  change (HasPrefix (String c (prefix ++ s)) (String c prefix) = true).
  simpl. by rewrite Ascii.eqb_refl.
Qed.

Lemma string_drop_append (prefix s : string) :
  string_drop (String.length prefix) (prefix ++ s) = s.
Proof.
  induction prefix as [|c prefix IH]; [by destruct s|].
  change (string_drop (S (String.length prefix)) (String c (prefix ++ s)) = s).
  simpl. exact IH.
Qed.

Section Properties.

Local Open Scope Z_scope.

Variable pp : option node → string.
Variable printers : Object → PrintfKind.
Variable FullName : Object → string.
Variable inPkg : Object → bool.
Variable PkgName : string.
Variable Files : list File.

(** The argument of a call expression of the path at index [idx]. *)
Definition argAt (idx : Z) (p : PathNode) : option node :=
  match p with
  | PathCallExpr cArgs => nodeOf <$> cArgs !! Z.to_nat idx
  | PathOther => None
  end.

(** The call expression has more than [idx] arguments. *)
Definition enough (idx : Z) (p : PathNode) : Prop :=
  match p with
  | PathCallExpr cArgs => idx < Z.of_nat (length cArgs)
  | PathOther => True
  end.

Lemma walkPath_enough path idx : ∀ n,
  0 ≤ idx → Forall (enough idx) path →
  walkPath path idx n
  = Ok (match last (omap (argAt idx) path) with
        | Some m => Some m
        | None => n
        end).
Proof.
  induction path as [|p path IH]; intros n Hidx Hen; [done|].
  apply Forall_cons in Hen as [Hp Hpath]. destruct p as [cArgs|].
  - cbn [walkPath]. simpl in Hp.
    destruct (Z.ltb_spec (Z.of_nat (length cArgs)) idx); [lia|].
    destruct (cArgs !! Z.to_nat idx) as [a|] eqn:Ha.
    + rewrite IH by done.
      assert (omap (argAt idx) (PathCallExpr cArgs :: path)
              = nodeOf a :: omap (argAt idx) path) as ->
        by (cbn; by rewrite Ha).
      rewrite last_cons. by destruct (last (omap (argAt idx) path)).
    + apply lookup_ge_None in Ha. lia.
  - cbn [walkPath]. by rewrite IH.
Qed.

(** X19: when every call expression on the path has more than [idx]
    arguments, the walk returns the argument at [idx] of the last call
    expression of the path, the outermost enclosing one, and the incoming
    node when the path holds no call expression. *)
Theorem walkPath_last_call path idx n :
  0 ≤ idx → Forall (enough idx) path →
  walkPath path idx n
  = Ok (match last (omap (argAt idx) path) with
        | Some m => Some m
        | None => n
        end).
Proof. apply walkPath_enough. Qed.

Lemma walkPath_app pre rest idx n :
  0 ≤ idx → Forall (enough idx) pre →
  walkPath (pre ++ rest) idx n
  = match walkPath pre idx n with
    | Ok n' => walkPath rest idx n'
    | Panic msg => Panic msg
    end.
Proof.
  intros Hidx. revert n. induction pre as [|p pre IH]; intros n Hen; [done|].
  apply Forall_cons in Hen as [Hp Hpre]. destruct p as [cArgs|]; simpl.
  - simpl in Hp. destruct (Z.ltb_spec (Z.of_nat (length cArgs)) idx); [lia|].
    destruct (cArgs !! Z.to_nat idx) as [a|] eqn:Ha; [by apply IH|done].
  - by apply IH.
Qed.

(** X20: the first call expression of the path with at most [idx]
    arguments ends the walk: with fewer than [idx] arguments the result is
    what the path before it gave and the rest of the path is not looked
    at; with exactly [idx] arguments the walk indexes past the end of its
    argument list and panics. *)
Theorem walkPath_short_call pre cArgs post idx n :
  0 ≤ idx → Forall (enough idx) pre →
  Z.of_nat (length cArgs) ≤ idx →
  walkPath (pre ++ PathCallExpr cArgs :: post) idx n
  = if Z.of_nat (length cArgs) <? idx then walkPath pre idx n
    else Panic index_out_of_range.
Proof.
  intros Hidx Hpre Hshort. rewrite walkPath_app by done.
  rewrite (walkPath_enough pre idx n Hidx Hpre). simpl.
  destruct (Z.ltb_spec (Z.of_nat (length cArgs)) idx); [done|].
  destruct (cArgs !! Z.to_nat idx) as [a|] eqn:Ha; [|done].
  apply lookup_lt_Some in Ha. lia.
Qed.

(** X21: a parameter passed as the format is accepted exactly when the
    enclosing function is classified by the printf analysis (any kind but
    none) and the parameter is its second-to-last one. *)
Theorem parameter_accepted_iff tfun params p :
  accepted (fmtParamOf printers tfun params) (VParameter p) = true ↔
  printers tfun ≠ KindNone ∧ ∃ pre q, params = (pre ++ [p; q])%list.
Proof.
  unfold accepted, fmtParamOf. split.
  - intros H. assert (Hk : printers tfun ≠ KindNone).
    { intros Hk. by rewrite Hk in H. }
    split; [done|].
    destruct (printers tfun); [done|..];
      (destruct (Z.leb_spec 2 (Z.of_nat (length params))) as [Hlen|]; [|done];
       destruct (params !! _) as [r|] eqn:Hr; [|done];
       apply bool_decide_eq_true in H as ->;
       apply list_elem_of_split_length in Hr as (pre & post & -> & Hpre);
       rewrite length_app in Hpre, Hlen; simpl in Hpre, Hlen;
       destruct post as [|q [|]]; simpl in *; try lia; by exists pre, q).
  - intros (Hk & pre & q & ->).
    assert (Hlen : Z.of_nat (length (pre ++ [p; q])%list) = Z.of_nat (length pre) + 2)
      by (rewrite length_app; simpl; lia).
    assert (Hget : (pre ++ [p; q])%list !! Z.to_nat (Z.of_nat (length (pre ++ [p; q])%list) - 2)
                   = Some p).
    { rewrite Hlen. replace (Z.to_nat (Z.of_nat (length pre) + 2 - 2))
        with (length pre + 0)%nat by lia.
      by rewrite lookup_app_r, Nat.add_comm, Nat.add_sub by lia. }
    rewrite Hget.
    destruct (Z.leb_spec 2 (Z.of_nat (length (pre ++ [p; q])%list))); [|lia].
    destruct (printers tfun); [done|..]; by apply bool_decide_eq_true.
Qed.

(** X22: the message names the argument when its rendered text is
    shorter than 35, and is the general one from 35 on. *)
Theorem message_threshold n name :
  ((String.length (pp n) < 35)%nat →
   message pp n name
   = "variable `" ++ pp n ++ "` used for " ++ name ++ " format parameter") ∧
  ((35 ≤ String.length (pp n))%nat →
   message pp n name
   = "non-constant expression used for " ++ name ++ " format parameter").
Proof.
  unfold message.
  assert (Hlen : String.length ("variable `" ++ pp n ++ "`")
                 = (String.length (pp n) + 11)%nat).
  { rewrite !length_append. simpl. lia. }
  rewrite Hlen. change (String.length "non-constant expression") with 23%nat.
  split; intros H.
  - destruct (Z.ltb_spec (Z.of_nat (String.length (pp n) + 11))
                         (2 * Z.of_nat 23)); [|lia].
    by rewrite !append_assoc.
  - by destruct (Z.ltb_spec (Z.of_nat (String.length (pp n) + 11))
                            (2 * Z.of_nat 23)); [lia|].
Qed.

(** X23: for a callee of the analysed package whose full name is the
    package name, a dot and a rest, the message shows the rest alone; for
    a callee of another package it shows the full name. *)
Theorem calleeName_unqualified tfun rest :
  (inPkg tfun = true → FullName tfun = PkgName ++ "." ++ rest →
   calleeName FullName inPkg PkgName tfun = rest) ∧
  (inPkg tfun = false →
   calleeName FullName inPkg PkgName tfun = FullName tfun).
Proof.
  unfold calleeName. split.
  - intros -> ->. unfold TrimPrefix. rewrite <-append_assoc.
    by rewrite HasPrefix_append, string_drop_append.
  - by intros ->.
Qed.

Definition isCallInstruction (i : Instruction) : bool :=
  match i with CallInstruction _ _ => true | OtherInstruction => false end.

Lemma visitCall_appends fmtParam com callPos reports reports' :
  visitCall pp printers FullName inPkg PkgName Files fmtParam com callPos reports
    = Ok reports' →
  reports' = reports ∨ ∃ d, reports' = (reports ++ [d])%list.
Proof.
  unfold visitCall.
  destruct (IsInvoke com); [intros [= <-]; right; by eexists|].
  destruct (StaticCallee com) as [callee|]; [|intros [= <-]; by left].
  destruct (isFunc callee) as [tfun|]; [|intros [= <-]; by left].
  destruct (printers tfun); [intros [= <-]; by left|..];
    (destruct (_ <? 2); [intros [= <-]; by left|];
     destruct (Args com !! _) as [v|]; [|done];
     destruct (accepted fmtParam v); [intros [= <-]; by left|];
     destruct (findArg _ _ _ _) as [n|]; [|done];
     intros [= <-]; right; by eexists).
Qed.

(** X24: over the instructions of a block, reports are only appended,
    and at most one is added per call instruction; other instructions
    add none. *)
Theorem one_report_per_call_instruction fmtParam instrs : ∀ reports reports',
  visitInstrs pp printers FullName inPkg PkgName Files fmtParam instrs reports
    = Ok reports' →
  ∃ ds, reports' = (reports ++ ds)%list ∧
    (length ds ≤ length (filter (λ i, isCallInstruction i = true) instrs))%nat.
Proof.
  induction instrs as [|i instrs IH]; intros reports reports'; simpl.
  - intros [= <-]. exists []. by rewrite app_nil_r.
  - rewrite filter_cons. destruct i as [com callPos|]; simpl.
    + destruct (visitCall _ _ _ _ _ _ _ _ _ _) as [r1|] eqn:Hc; [|done].
      intros (ds & -> & Hlen)%IH.
      apply visitCall_appends in Hc as [->|(d & ->)].
      * exists ds. split; [done|]. simpl. lia.
      * exists (d :: ds). rewrite <-app_assoc. split; [done|]. simpl. lia.
    + intros (ds & -> & Hlen)%IH. by exists ds.
Qed.

(** X25: a static call whose second-to-last SSA argument is a
    constant, a slice of a constant or the format parameter of the
    enclosing function is never reported, whatever its callee and
    wherever it stands; the files are not consulted, so nothing can go
    wrong there. *)
Theorem accepted_call_not_reported fmtParam com callPos reports :
  IsInvoke com = false →
  (2 ≤ Z.of_nat (length (Args com)) →
   ∃ v, Args com !! Z.to_nat (Z.of_nat (length (Args com)) - 2) = Some v ∧
        (v = VConst ∨ v = VSlice VConst ∨
         ∃ p, v = VParameter p ∧ fmtParam = Some p)) →
  visitCall pp printers FullName inPkg PkgName Files fmtParam com callPos reports
  = Ok reports.
Proof.
  intros Hinv Hacc. unfold visitCall. rewrite Hinv.
  destruct (StaticCallee com) as [callee|]; [|done].
  destruct (isFunc callee) as [tfun|]; [|done].
  destruct (printers tfun); [done|..];
    (destruct (Z.ltb_spec (Z.of_nat (length (Args com))) 2) as [|Hlen];
       [done|];
     destruct (Hacc Hlen) as (v & -> & [->|[->|(p & -> & ->)]]);
     [done|done|];
     simpl; by rewrite bool_decide_true).
Qed.

End Properties.

End Ssa.

(** * The further properties on the test package *)

Section MoreOnTestdata.

Local Open Scope Z_scope.

Import Testdata.

Abbreviation visitAll := (visitAll ti pp printers Pos End_).
Abbreviation visitCallExpr := (visitCallExpr ti pp printers Pos End_).
Abbreviation checkFormat := (checkFormat ti pp Pos End_).

(** [c1 + `abc`], [string(v1)], [(fmt.Sprintf)] and [(format)] *)
Definition c1_plus_abc := BinaryExpr 53 (Ident 4) (BasicLit 48).
Definition paren_fmt_Sprintf := ParenExpr 55 fmt_Sprintf.
Definition paren_format := ParenExpr 56 (Ident 19).
Definition modifiedpassthrough : list Node :=
  [decl_passthrough; call_forward; assign_format; call_forward].

Lemma constant_verdict_keeps_state_witness :
  ∃ s', constlit string_abc empty = Ok (true, s') ∧ s' = empty.
Proof.
  eexists. split; [vm_compute; reflexivity|].
  apply (constant_verdict_keeps_state ti pp string_abc empty).
  vm_compute. reflexivity.
Defined.

Lemma nonconstant_verdict_culprits_witness :
  ∃ s', constlit paren_v1_plus_c1 {| bad := ∅; out := [] |} = Ok (false, s') ∧
        bad s' ≠ ∅ ∧ bad s' ⊆ nodes paren_v1_plus_c1.
Proof.
  eexists. split; [vm_compute; reflexivity|].
  apply (nonconstant_verdict_culprits ti pp paren_v1_plus_c1 []).
  vm_compute. reflexivity.
Defined.

Lemma verdict_state_independent_witness :
  ∃ s1' s2' b1 b2,
    constlit v1_plus_c1 empty = Ok (b1, s1') ∧
    constlit v1_plus_c1 {| bad := {[7%positive]}; out := ["x"] |}
      = Ok (b2, s2') ∧
    b1 = b2.
Proof.
  eexists _, _, _, _. split; [vm_compute; reflexivity|].
  split; [vm_compute; reflexivity|].
  eapply (verdict_state_independent ti pp v1_plus_c1 empty
            {| bad := {[7%positive]}; out := ["x"] |});
    vm_compute; reflexivity.
Defined.

Lemma all_constant_composite_witness :
  composite c1_plus_abc = true ∧
  Forall (judged ti pp true) (operands c1_plus_abc) ∧
  constlit c1_plus_abc empty = Ok (true, empty).
Proof.
  assert (Hj : Forall (judged ti pp true) (operands c1_plus_abc)).
  { constructor; [|constructor; [|constructor]].
    - exact (resolved_judged ti pp (Ident 4) eq_refl).
    - exact (resolved_judged ti pp (BasicLit 48) eq_refl). }
  split; [reflexivity|]. split; [exact Hj|].
  exact (all_constant_composite ti pp c1_plus_abc empty eq_refl Hj).
Defined.

Lemma mixed_operands_witness :
  composite v1_plus_c1 = true ∧
  Exists (judged ti pp true) (operands v1_plus_c1) ∧
  Exists (judged ti pp false) (operands v1_plus_c1) ∧
  ∃ s', constlit v1_plus_c1 empty = Ok (false, s') ∧
        nodeOf v1_plus_c1 ∉ bad s'.
Proof.
  assert (Hv1 : judged ti pp false (Ident 1))
    by exact (resolved_judged ti pp (Ident 1) eq_refl).
  assert (Hc1 : judged ti pp true (Ident 4))
    by exact (resolved_judged ti pp (Ident 4) eq_refl).
  assert (Ht : Exists (judged ti pp true) (operands v1_plus_c1))
    by (apply Exists_cons_tl, Exists_cons_hd, Hc1).
  assert (Hf : Exists (judged ti pp false) (operands v1_plus_c1))
    by (apply Exists_cons_hd, Hv1).
  split; [reflexivity|]. split; [exact Ht|]. split; [exact Hf|].
  destruct (mixed_operands ti pp v1_plus_c1 empty eq_refl
              ltac:(constructor; [by right|constructor; [by left|constructor]])
              Ht Hf) as (s' & Hs' & _ & Hout).
  exists s'. split; [exact Hs'|].
  apply Hout; apply (bool_decide_unpack _); vm_compute; exact I.
Defined.

(** [g()], and [passthrough(x.y)] and [passthrough(c1)], whose callee is
    a function: [x.y] resolves to nothing and would stop the evaluation
    if it were looked at. *)
Lemma ordinary_call_blamed_witness :
  (length ([] : list Expr) ≠ 1%nat ∧
   ∃ s', constlit call_g empty = Ok (false, s') ∧
         bad s' = {[47%positive]} ∪ bad empty) ∧
  (callee_name ti (Ident 8) = Some passthrough ∧
   okind passthrough ≠ KTypeName ∧
   constlit x_dot_y empty = Panic nil_deref ∧
   ∃ s', constlit (CallExpr 61 (Ident 8) [x_dot_y]) empty = Ok (false, s') ∧
         bad s' = {[61%positive]} ∪ bad empty) ∧
  (∀ s, constlit (Ident 4) s = Ok (true, s)) ∧
  ∃ s', constlit (CallExpr 62 (Ident 8) [Ident 4]) empty = Ok (false, s') ∧
        bad s' = {[62%positive]} ∪ bad empty.
Proof.
  assert (Hlen : length ([] : list Expr) ≠ 1%nat) by discriminate.
  assert (Hfun : ∀ o, callee_name ti (Ident 8) = Some o → okind o ≠ KTypeName).
  { intros o [= <-]. discriminate. }
  split; [|split; [|split]].
  - split; [exact Hlen|].
    exact (ordinary_call_blamed ti pp 47 (Ident 13) [] empty (or_introl Hlen)).
  - split; [reflexivity|]. split; [discriminate|]. split; [reflexivity|].
    exact (ordinary_call_blamed ti pp 61 (Ident 8) [x_dot_y] empty
             (or_intror Hfun)).
  - reflexivity.
  - exact (ordinary_call_blamed ti pp 62 (Ident 8) [Ident 4] empty
             (or_intror Hfun)).
Defined.


Lemma only_printf_errorf_checked_witness :
  callee_resolves ti (Ident 13) g ∧ unchecked printers g ∧
  visitCallExpr false (Ident 13) [Ident 1] start = Ok start.
Proof.
  assert (Hun : unchecked printers g) by (left; reflexivity).
  split; [reflexivity|]. split; [exact Hun|].
  exact (only_printf_errorf_checked ti pp printers Pos End_ false (Ident 13)
           [Ident 1] start g eq_refl Hun).
Defined.

Lemma unnamed_callee_never_reported_witness :
  (∀ id, paren_fmt_Sprintf ≠ Ident id) ∧
  (∀ n X Sel, paren_fmt_Sprintf ≠ SelectorExpr n X Sel) ∧
  ∃ st', visitCallExpr false paren_fmt_Sprintf [Ident 1] start = Ok st' ∧
         reported st' = reported start ∧ passthru st' = passthru start.
Proof.
  assert (H1 : ∀ id, paren_fmt_Sprintf ≠ Ident id) by discriminate.
  assert (H2 : ∀ n X Sel, paren_fmt_Sprintf ≠ SelectorExpr n X Sel)
    by discriminate.
  split; [exact H1|]. split; [exact H2|].
  exact (unnamed_callee_never_reported ti pp printers Pos End_ false
           paren_fmt_Sprintf [Ident 1] start H1 H2).
Defined.

Lemma reported_diagnostic_shape_witness :
  ∃ st', visitCallExpr false fmt_Sprintf [Ident 1] start = Ok st' ∧
    (reported st' = reported start ∨
     ∃ i arg d subject,
       checkargOf ti printers fmt_Sprintf = Ok (Some i) ∧ 0 ≤ i ∧
       [Ident 1] !! Z.to_nat i = Some arg ∧
       reported st' = (reported start ++ [d])%list ∧
       dPos d = Pos (nodeOf arg) ∧ dEnd d = End_ (nodeOf arg) ∧
       dMessage d = subject ++ " used for " ++ pp (nodeOf fmt_Sprintf)
                    ++ " format parameter" ∧
       dRelated d ≠ []).
Proof.
  eexists. split; [vm_compute; reflexivity|].
  apply (reported_diagnostic_shape ti pp printers Pos End_ false fmt_Sprintf
           [Ident 1] start).
  vm_compute. reflexivity.
Defined.

Lemma one_diagnostic_per_call_witness :
  ∃ st', visitAll false modifiedpassthrough start = Ok st' ∧
    ∃ ds, reported st' = (reported start ++ ds)%list ∧
      (length ds
       ≤ length (filter (λ n, isCall n = true) modifiedpassthrough))%nat.
Proof.
  eexists. split; [vm_compute; reflexivity|].
  apply (one_diagnostic_per_call ti pp printers Pos End_ false
           modifiedpassthrough start).
  vm_compute. reflexivity.
Defined.

Lemma bare_identifier_reported_only_if_variable_witness :
  ∃ st', checkFormat fmt_Sprintf (Ident 1) start = Ok st' ∧
    reported st' ≠ reported start ∧
    ∃ o, ObjectOf ti 1 = Some o ∧ okind o = KVar ∧
         (oid o ∉ passthru start) ∧
         st' = report (variable_diagnostic pp Pos End_ fmt_Sprintf 1 o) start.
Proof.
  eexists. split; [vm_compute; reflexivity|].
  assert (Hne : [variable_diagnostic pp Pos End_ fmt_Sprintf 1 v1]
                ≠ reported start) by discriminate.
  split; [exact Hne|].
  apply (bare_identifier_reported_only_if_variable ti pp Pos End_
           fmt_Sprintf 1 start).
  - vm_compute. reflexivity.
  - exact Hne.
Defined.

Lemma registry_irrelevant_for_expressions_witness :
  (∀ id, paren_format ≠ Ident id) ∧
  checkFormat fmt_Sprintf paren_format (with_registry {[9%positive]} start)
  = match checkFormat fmt_Sprintf paren_format start with
    | Ok st' => Ok (with_registry {[9%positive]} st')
    | Panic msg => Panic msg
    end.
Proof.
  assert (H1 : ∀ id, paren_format ≠ Ident id) by discriminate.
  split; [exact H1|].
  exact (registry_irrelevant_for_expressions ti pp Pos End_ fmt_Sprintf
           paren_format start {[9%positive]} H1).
Defined.

Lemma suppress_only_removes_witness :
  ∃ st, run false modifiedpassthrough = Ok st ∧
    ∃ st', run true modifiedpassthrough = Ok st' ∧
      passthru st' = passthru st ∧ reported st' `sublist_of` reported st.
Proof.
  eexists. split; [vm_compute; reflexivity|].
  apply (suppress_only_removes ti pp printers Pos End_ modifiedpassthrough).
  vm_compute. reflexivity.
Defined.


Lemma related_notes_inside_witness :
  ∃ st' d, checkFormat fmt_Sprintf paren_v1_plus_c1 start = Ok st' ∧
    reported st' = (reported start ++ [d])%list ∧
    ∀ r, r ∈ dRelated d →
      ∃ n, n ∈ nodes paren_v1_plus_c1 ∧ r = related_of pp Pos End_ n.
Proof.
  eexists _, _. split; [vm_compute; reflexivity|].
  split; [reflexivity|].
  eapply (related_notes_inside ti pp Pos End_ fmt_Sprintf paren_v1_plus_c1
            start).
  - discriminate.
  - vm_compute. reflexivity.
  - reflexivity.
Defined.

End MoreOnTestdata.

(** * The SSA analyzer on the test package *)

Section SsaOnTestdata.

Local Open Scope Z_scope.

Definition ssa_pp (n : option node) : string :=
  match n with
  | Some 1%positive => "v1"
  | Some 2%positive => "map[bool]string{false: `false`, true: `true`}[false]"
  | Some 60%positive => "fmt.Sprintf(v1)"
  | Some m => Testdata.pp m
  | None => ""
  end.

Definition ssa_FullName (o : Object) : string :=
  match oid o with
  | 6%positive => "fmt.Sprintf"
  | 8%positive => "a.passthrough"
  | _ => "?"
  end.

Definition ssa_inPkg (o : Object) : bool := bool_decide (oid o = 8%positive).

(** the path of [passthrough(fmt.Sprintf(v1))()], innermost first *)
Definition ssa_path : list Ssa.PathNode :=
  [Ssa.PathCallExpr [Ident 1]; Ssa.PathOther;
   Ssa.PathCallExpr [CallExpr 60 Testdata.fmt_Sprintf [Ident 1]]].

Definition ssa_files : list Ssa.File :=
  [ {| Ssa.filePos := 1; Ssa.fileEnd := 1000;
       Ssa.PathEnclosingInterval := λ _, ssa_path |} ].

(** [fmt.Sprintf(x)] with [x] a value of another kind, a constant, and
    the parameter 9 *)
Definition ssa_call (v : Ssa.Value) : Ssa.CallCommon :=
  {| Ssa.IsInvoke := false; Ssa.StaticCallee := Some (Some Testdata.Sprintf);
     Ssa.Args := [v; Ssa.VOther]; Ssa.comPos := 5 |}.

Lemma walkPath_last_call_witness :
  0 ≤ 0 ∧ Forall (Ssa.enough 0) ssa_path ∧
  Ssa.walkPath ssa_path 0 None = Ok (Some 60%positive).
Proof.
  assert (Hen : Forall (Ssa.enough 0) ssa_path).
  { constructor; [reflexivity|]. constructor; [exact I|].
    constructor; [reflexivity|]. constructor. }
  split; [lia|]. split; [exact Hen|].
  exact (Ssa.walkPath_last_call ssa_path 0 None ltac:(lia) Hen).
Defined.

Lemma walkPath_short_call_witness :
  Forall (Ssa.enough 0) ssa_path ∧
  Z.of_nat (length ([] : list Expr)) ≤ 0 ∧
  Ssa.walkPath (ssa_path ++ Ssa.PathCallExpr [] :: [Ssa.PathOther]) 0 None
  = Panic index_out_of_range.
Proof.
  assert (Hen : Forall (Ssa.enough 0) ssa_path).
  { constructor; [reflexivity|]. constructor; [exact I|].
    constructor; [reflexivity|]. constructor. }
  split; [exact Hen|]. split; [simpl; lia|].
  exact (Ssa.walkPath_short_call ssa_path [] [Ssa.PathOther] 0 None
           ltac:(lia) Hen ltac:(simpl; lia)).
Defined.

Lemma parameter_accepted_iff_witness :
  Testdata.printers Testdata.passthrough ≠ KindNone ∧
  Ssa.accepted
    (Ssa.fmtParamOf Testdata.printers Testdata.passthrough [9; 10]%positive)
    (Ssa.VParameter 9) = true.
Proof.
  assert (Hk : Testdata.printers Testdata.passthrough ≠ KindNone)
    by discriminate.
  split; [exact Hk|].
  apply (proj2 (Ssa.parameter_accepted_iff Testdata.printers
                  Testdata.passthrough [9; 10]%positive 9%positive)).
  split; [exact Hk|]. exists [], 10%positive. reflexivity.
Defined.

Lemma message_threshold_witness :
  ((String.length (ssa_pp (Some 1%positive)) < 35)%nat ∧
   Ssa.message ssa_pp (Some 1%positive) "fmt.Sprintf"
   = "variable `v1` used for fmt.Sprintf format parameter") ∧
  ((35 ≤ String.length (ssa_pp (Some 2%positive)))%nat ∧
   Ssa.message ssa_pp (Some 2%positive) "fmt.Sprintf"
   = "non-constant expression used for fmt.Sprintf format parameter").
Proof.
  assert (H1 : (String.length (ssa_pp (Some 1%positive)) < 35)%nat)
    by (vm_compute; lia).
  assert (H2 : (35 ≤ String.length (ssa_pp (Some 2%positive)))%nat)
    by (vm_compute; lia).
  split; (split; [assumption|]).
  - exact (proj1 (Ssa.message_threshold ssa_pp (Some 1%positive)
                    "fmt.Sprintf") H1).
  - exact (proj2 (Ssa.message_threshold ssa_pp (Some 2%positive)
                    "fmt.Sprintf") H2).
Defined.

Lemma calleeName_unqualified_witness :
  (ssa_inPkg Testdata.passthrough = true ∧
   ssa_FullName Testdata.passthrough = "a" ++ "." ++ "passthrough" ∧
   Ssa.calleeName ssa_FullName ssa_inPkg "a" Testdata.passthrough
   = "passthrough") ∧
  (ssa_inPkg Testdata.Sprintf = false ∧
   Ssa.calleeName ssa_FullName ssa_inPkg "a" Testdata.Sprintf
   = ssa_FullName Testdata.Sprintf).
Proof.
  split.
  - split; [reflexivity|]. split; [reflexivity|].
    exact (proj1 (Ssa.calleeName_unqualified ssa_FullName ssa_inPkg "a"
                    Testdata.passthrough "passthrough") eq_refl eq_refl).
  - split; [reflexivity|].
    exact (proj2 (Ssa.calleeName_unqualified ssa_FullName ssa_inPkg "a"
                    Testdata.Sprintf "") eq_refl).
Defined.

Lemma one_report_per_call_instruction_witness :
  ∃ reports',
    Ssa.visitInstrs ssa_pp Testdata.printers ssa_FullName ssa_inPkg "a"
      ssa_files (Some 9%positive)
      [Ssa.CallInstruction (ssa_call Ssa.VOther) 5; Ssa.OtherInstruction;
       Ssa.CallInstruction (ssa_call (Ssa.VParameter 9)) 7] []
    = Ok reports' ∧
    ∃ ds, reports' = ([] ++ ds)%list ∧
      (length ds
       ≤ length (filter (λ i, Ssa.isCallInstruction i = true)
           [Ssa.CallInstruction (ssa_call Ssa.VOther) 5; Ssa.OtherInstruction;
            Ssa.CallInstruction (ssa_call (Ssa.VParameter 9)) 7]))%nat.
Proof.
  eexists. split; [vm_compute; reflexivity|].
  apply (Ssa.one_report_per_call_instruction ssa_pp Testdata.printers
           ssa_FullName ssa_inPkg "a" ssa_files (Some 9%positive)).
  vm_compute. reflexivity.
Defined.

(** A constant, a slice of a constant and the format parameter of the
    enclosing function; another parameter is reported. *)
Lemma accepted_call_not_reported_witness :
  Ssa.IsInvoke (ssa_call Ssa.VConst) = false ∧
  Ssa.visitCall ssa_pp Testdata.printers ssa_FullName ssa_inPkg "a" ssa_files
    None (ssa_call Ssa.VConst) 5 [] = Ok [] ∧
  Ssa.visitCall ssa_pp Testdata.printers ssa_FullName ssa_inPkg "a" ssa_files
    None (ssa_call (Ssa.VSlice Ssa.VConst)) 5 [] = Ok [] ∧
  Ssa.visitCall ssa_pp Testdata.printers ssa_FullName ssa_inPkg "a" ssa_files
    (Some 9%positive) (ssa_call (Ssa.VParameter 9)) 5 [] = Ok [] ∧
  Ssa.visitCall ssa_pp Testdata.printers ssa_FullName ssa_inPkg "a" ssa_files
    (Some 9%positive) (ssa_call (Ssa.VParameter 10)) 5 [] ≠ Ok [].
Proof.
  split; [reflexivity|]. split; [|split; [|split]].
  - apply (Ssa.accepted_call_not_reported ssa_pp Testdata.printers ssa_FullName
             ssa_inPkg "a" ssa_files None (ssa_call Ssa.VConst) 5 []).
    + reflexivity.
    + intros _. exists Ssa.VConst. split; [reflexivity|]. left. reflexivity.
  - apply (Ssa.accepted_call_not_reported ssa_pp Testdata.printers ssa_FullName
             ssa_inPkg "a" ssa_files None (ssa_call (Ssa.VSlice Ssa.VConst))
             5 []).
    + reflexivity.
    + intros _. exists (Ssa.VSlice Ssa.VConst). split; [reflexivity|].
      right. left. reflexivity.
  - apply (Ssa.accepted_call_not_reported ssa_pp Testdata.printers ssa_FullName
             ssa_inPkg "a" ssa_files (Some 9%positive)
             (ssa_call (Ssa.VParameter 9)) 5 []).
    + reflexivity.
    + intros _. exists (Ssa.VParameter 9). split; [reflexivity|].
      right. right. exists 9%positive. split; reflexivity.
  - vm_compute. discriminate.
Defined.

(** The earlier analyzer on [fmt.Sprintf(v1)] nested in the call above:
    the argument shown is that of the outermost call expression. *)
Example ssa_outermost_argument :
  Ssa.visitCall ssa_pp Testdata.printers ssa_FullName ssa_inPkg "a" ssa_files
    None (ssa_call Ssa.VOther) 5 []
  = Ok [Ssa.Reportf 5
          "variable `fmt.Sprintf(v1)` used for fmt.Sprintf format parameter"].
Proof. vm_compute. reflexivity. Qed.

End SsaOnTestdata.
